(** * Verification of the colour-palette extractor and colour utilities

    The development follows the two TypeScript modules of the repository:

    - the palette quantizer ([getDominantColors], [rgbToHex]);
    - the colour transform engine ([normalizeHex], [getColorFormats],
      [getShades], [getTones], [getComplementary], [adjustColor],
      [checkContrast]) and the shareable-link code of [App.tsx].

    Pixel channels are the entries of a canvas [ImageData] buffer, i.e.
    integers; they are modelled in [Z].  All other JavaScript numbers are
    IEEE-754 binary64 values and are modelled by the primitive type
    [float].  Functions of the external library d3-color and the
    implementation-approximated [Math.pow] are section variables.
    Properties of the arithmetic on numbers are stated on their exact
    rational values. *)

From Stdlib Require Import ZArith List String Ascii Bool Lia.
From Stdlib Require Import Sorted Permutation.
From Stdlib Require Import DecimalString HexadecimalString DecimalZ HexadecimalZ.
From Stdlib Require Import Floats.
From Stdlib Require Uint63.
From Stdlib Require QArith Qpower Lqa.
Import ListNotations.

Set Warnings "-inexact-float".

Local Open Scope string_scope.
Local Open Scope Z_scope.

(** ** JavaScript strings and arrays *)

Module JS.

(** [Number.prototype.toString()] on an integer value: decimal digits with
    a leading minus sign for negative values. *)
Definition toString10 (z : Z) : string :=
  DecimalString.NilZero.string_of_int (Z.to_int z).

(** [Number.prototype.toString(16)] on an integer value: lowercase
    hexadecimal digits with a leading minus sign for negative values. *)
Definition toString16 (z : Z) : string :=
  HexadecimalString.NilZero.string_of_int (Z.to_hex_int z).

(** [Number(s)] on a string holding a decimal integer literal; [None]
    stands for [NaN]. *)
Definition Number (s : string) : option Z :=
  option_map Z.of_int (DecimalString.NilZero.int_of_string s).

(** [s.split(sep)] for a one-character separator. *)
Fixpoint split (sep : ascii) (s : string) : list string :=
  match s with
  | EmptyString => [EmptyString]
  | String c s' =>
      if Ascii.eqb c sep then EmptyString :: split sep s'
      else match split sep s' with
           | [] => [String c EmptyString]
           | w :: ws => String c w :: ws
           end
  end.

(** [a.join(sep)]. *)
Fixpoint join (sep : string) (l : list string) : string :=
  match l with
  | [] => EmptyString
  | [w] => w
  | w :: ws => w ++ sep ++ join sep ws
  end.

(** [a.slice(0, count)] for an integer [count]: a negative end index counts
    from the end of the array. *)
Definition slice0 {A : Type} (count : Z) (l : list A) : list A :=
  let len := Z.of_nat (List.length l) in
  let final := if count <? 0 then Z.max (len + count) 0 else Z.min count len in
  firstn (Z.to_nat final) l.

(** [a.sort(cmp)]: the sort of ECMAScript is stable; with a consistent
    comparator its result is the stable sorted arrangement, computed here
    by insertion from the right. *)
Fixpoint insert {A : Type} (cmp : A -> A -> Z) (x : A) (l : list A) : list A :=
  match l with
  | [] => [x]
  | y :: l' => if 0 <? cmp x y then y :: insert cmp x l' else x :: y :: l'
  end.

Definition sort {A : Type} (cmp : A -> A -> Z) (l : list A) : list A :=
  fold_right (insert cmp) [] l.

End JS.

(** ** The palette quantizer *)

Module Quantizer.

Record pixel : Type := mkPixel { r : Z; g : Z; b : Z }.

Definition factor : Z := 32.

(** [Math.round(c / factor) * factor] on an integer channel [c]:
    [Math.round] rounds to the nearest integer, halves upwards, which on
    the quotient [c / factor] is [floor ((2c + factor) / (2 factor))]. *)
Definition round_to_factor (c : Z) : Z :=
  ((2 * c + factor) / (2 * factor)) * factor.

(** The template literal [`${r},${g},${b}`]. *)
Definition key_of (r g b : Z) : string :=
  JS.toString10 r ++ "," ++ JS.toString10 g ++ "," ++ JS.toString10 b.

Definition bucket_key (p : pixel) : string :=
  key_of (round_to_factor (r p)) (round_to_factor (g p)) (round_to_factor (b p)).

(** [buckets[key] = (buckets[key] || 0) + 1] on an object whose own keys
    are enumerated in insertion order (no key of the form "r,g,b" is an
    array index). *)
Fixpoint bump (key : string) (buckets : list (string * Z)) : list (string * Z) :=
  match buckets with
  | [] => [(key, 0 + 1)]
  | (k, n) :: rest =>
      if String.eqb k key then (k, n + 1) :: rest else (k, n) :: bump key rest
  end.

(** The [forEach] loop, followed by [Object.entries]. *)
Definition entries (pixels : list pixel) : list (string * Z) :=
  fold_left (fun buckets p => bump (bucket_key p) buckets) pixels [].

(** The comparator [(a, b) => b[1] - a[1]]. *)
Definition by_count_desc (a b : string * Z) : Z := snd b - snd a.

(** One channel of [rgbToHex]; [None] is [NaN], whose [toString(16)] is
    the string "NaN". *)
Definition hex_channel (x : option Z) : string :=
  let hex := match x with Some z => JS.toString16 z | None => "NaN" end in
  if Nat.eqb (String.length hex) 1 then "0" ++ hex else hex.

Definition rgbToHex (r g b : option Z) : string :=
  "#" ++ JS.join "" (map hex_channel [r; g; b]).

(** The callback [([key]) => { const [r, g, b] = key.split(',').map(Number);
    return rgbToHex(r, g, b); }].  A key always has three parts; a
    missing part would be [undefined]. *)
Definition entry_color (e : string * Z) : string :=
  match map JS.Number (JS.split "," (fst e)) with
  | r :: g :: b :: _ => rgbToHex r g b
  | _ => "#"
  end.

(** The entries ranked by the stable sort, then cut by [slice(0, count)]. *)
Definition ranked (pixels : list pixel) : list (string * Z) :=
  JS.sort by_count_desc (entries pixels).

Definition top_buckets (pixels : list pixel) (count : Z) : list (string * Z) :=
  JS.slice0 count (ranked pixels).

Definition getDominantColors (pixels : list pixel) (count : Z) : list string :=
  map entry_color (top_buckets pixels count).

End Quantizer.

(** ** Notions used to state the properties of the quantizer *)

(** [precedes x y l]: an occurrence of [x] lies before an occurrence of
    [y] in [l]. *)
Definition precedes {A : Type} (x y : A) (l : list A) : Prop :=
  exists l1 l2 l3, l = (l1 ++ x :: l2 ++ y :: l3)%list.

(** Descending order of an integer rank. *)
Definition desc {A : Type} (rank : A -> Z) (a b : A) : Prop := rank b <= rank a.

Fixpoint has_char (c : ascii) (s : string) : bool :=
  match s with
  | EmptyString => false
  | String a s' => Ascii.eqb a c || has_char c s'
  end.

Module QuantizerSpec.

Import Quantizer.

(** The histogram as a function of the sequence of bucket keys. *)
Definition of_keys (keys : list string) : list (string * Z) :=
  fold_left (fun buckets k => bump k buckets) keys [].

Fixpoint lookup (k : string) (buckets : list (string * Z)) : option Z :=
  match buckets with
  | [] => None
  | (k', n) :: rest => if String.eqb k' k then Some n else lookup k rest
  end.

(** Position of the first occurrence of a key ([length] when absent). *)
Fixpoint first_index (k : string) (keys : list string) : nat :=
  match keys with
  | [] => O
  | k' :: rest => if String.eqb k' k then O else S (first_index k rest)
  end.

(** Number of distinct bucket keys of a pixel sequence. *)
Definition distinct_buckets (pixels : list pixel) : nat :=
  List.length (nodup string_dec (map bucket_key pixels)).

(** Occurrences of a bucket key in a pixel sequence. *)
Definition occurrences (k : string) (pixels : list pixel) : Z :=
  Z.of_nat (count_occ string_dec (map bucket_key pixels) k).

Definition is_hex_digit (c : ascii) : bool :=
  let n := nat_of_ascii c in
  ((48 <=? n) && (n <=? 57) || (97 <=? n) && (n <=? 102)
   || (65 <=? n) && (n <=? 70))%nat.

(** A colour string of the form [#rrggbb]. *)
Definition is_rrggbb (s : string) : bool :=
  match s with
  | String "#" digits =>
      Nat.eqb (String.length digits) 6
      && forallb is_hex_digit (list_ascii_of_string digits)
  | _ => false
  end.

(** All three channels of a pixel lie in [[0, bound)]. *)
Definition channels_below (bound : Z) (p : pixel) : Prop :=
  0 <= r p < bound /\ 0 <= g p < bound /\ 0 <= b p < bound.

Definition two_hex_digits (s : string) : bool :=
  match s with
  | String a (String b EmptyString) => is_hex_digit a && is_hex_digit b
  | _ => false
  end.

End QuantizerSpec.

(** ** JavaScript numbers

    A JavaScript number is an IEEE-754 binary64 value; [+], [-], [*], [/]
    and the comparisons are the primitive operations of [float].  The
    operations below are computed exactly through the decomposition of a
    finite number into sign, mantissa and exponent. *)

Module JSNumber.

Local Open Scope float_scope.

(** The number with integer value [z] (exact for [|z| <= 2^53]). *)
Definition of_Z (z : Z) : float :=
  SF2Prim match z with
          | Z0 => S754_zero false
          | Zpos p => S754_finite false p 0
          | Zneg p => S754_finite true p 0
          end.

(** The integer part of a number, towards zero ([0] for [NaN] and the
    infinities). *)
Definition trunc_Z (x : float) : Z :=
  match Prim2SF x with
  | S754_finite s m e =>
      let n := if (0 <=? e)%Z then (Zpos m * 2 ^ e)%Z else (Zpos m / 2 ^ (- e))%Z in
      if s then (- n)%Z else n
  | _ => 0%Z
  end.

(** [ToBoolean]: [NaN], [+0] and [-0] are falsy. *)
Definition truthy (x : float) : bool := negb (is_nan x || is_zero x).

(** [x || y]. *)
Definition or_else (x y : float) : float := if truthy x then x else y.

(** [Math.max(x, y)]: [NaN] if either is [NaN]; [+0] is larger than [-0]. *)
Definition Math_max (x y : float) : float :=
  if is_nan x || is_nan y then nan
  else if x <? y then y
  else if y <? x then x
  else if get_sign x then y else x.

(** [Math.min(x, y)]: [NaN] if either is [NaN]; [-0] is smaller than [+0]. *)
Definition Math_min (x y : float) : float :=
  if is_nan x || is_nan y then nan
  else if x <? y then x
  else if y <? x then y
  else if get_sign x then x else y.

(** [Math.round(x)]: the integer nearest to [x], halves towards
    [+Infinity]; a result of zero keeps the sign of [x]. *)
Definition Math_round (x : float) : float :=
  match Prim2SF x with
  | S754_finite s m e =>
      if (0 <=? e)%Z then x
      else
        let d := (2 ^ (- e))%Z in
        let n := (((if s then - (2 * Zpos m) else 2 * Zpos m) + d) / (2 * d))%Z in
        if (n =? 0)%Z then (if s then neg_zero else zero) else of_Z n
  | _ => x
  end.

(** [n % d]: the remainder of the truncating division, with the sign of
    the dividend; it is always exactly representable. *)
Definition rem (n d : float) : float :=
  match Prim2SF n, Prim2SF d with
  | S754_nan, _ | _, S754_nan => nan
  | S754_infinity _, _ => nan
  | _, S754_zero _ => nan
  | _, S754_infinity _ => n
  | S754_zero _, _ => n
  | S754_finite sn mn en, S754_finite _ md ed =>
      let e := Z.min en ed in
      let N := (Zpos mn * 2 ^ (en - e))%Z in
      let D := (Zpos md * 2 ^ (ed - e))%Z in
      match (N mod D)%Z with
      | Zpos p => SF2Prim (S754_finite sn p e)
      | _ => if sn then neg_zero else zero
      end
  end.

(** [x.toFixed(2)].  [toString] is [Number::toString], used for [NaN],
    the infinities and magnitudes of at least [10^21]. *)
Definition toFixed2 (toString : float -> string) (x : float) : string :=
  match Prim2SF x with
  | S754_zero _ => "0.00"
  | S754_finite s m e =>
      if 1e21 <=? abs x then toString x
      else
        let n := if (0 <=? e)%Z then (100 * Zpos m * 2 ^ e)%Z
                 else ((200 * Zpos m + 2 ^ (- e)) / (2 * 2 ^ (- e)))%Z in
        let digits := JS.toString10 n in
        let padded :=
          if (n <? 10)%Z then "00" ++ digits
          else if (n <? 100)%Z then "0" ++ digits else digits in
        let k := String.length padded in
        (if s then "-" else "")
          ++ substring 0 (k - 2) padded ++ "." ++ substring (k - 2) 2 padded
  | _ => toString x
  end.

End JSNumber.

(** ** The d3-color library (external)

    The repository calls [d3.color], [d3.rgb], [d3.lch] and
    [formatHex].  The hexadecimal branch of the parser and the hex
    formatter are modelled after d3-color 3.x; the other CSS syntaxes, the
    HSL conversion and the CIELAB arithmetic stay parameters.  Strings are
    sequences of 8-bit characters. *)

Module D3.

Import JSNumber.

Local Open Scope float_scope.

Record Rgb : Type := mkRgb { r : float; g : float; b : float; opacity : float }.

(** A parsed colour is an [Rgb] or an [Hsl] object. *)
Inductive Color : Type :=
  | RgbColor (c : Rgb)
  | HslColor (h s l opacity : float).

(** [new Hcl(h, c, l, opacity)]. *)
Record Hcl : Type := mkHcl { h : float; c : float; l : float; hcl_opacity : float }.

Definition is_space (a : ascii) : bool :=
  let n := nat_of_ascii a in
  (Nat.eqb n 32 || (9 <=? n) && (n <=? 13) || Nat.eqb n 160)%nat.

Fixpoint trim_left (s : string) : string :=
  match s with
  | String a s' => if is_space a then trim_left s' else s
  | EmptyString => EmptyString
  end.

Fixpoint trim_right (s : string) : string :=
  match s with
  | String a s' =>
      match trim_right s' with
      | EmptyString => if is_space a then EmptyString else String a EmptyString
      | t => String a t
      end
  | EmptyString => EmptyString
  end.

(** [s.trim()]. *)
Definition trim (s : string) : string := trim_right (trim_left s).

Definition lower_char (a : ascii) : ascii :=
  let n := nat_of_ascii a in
  if ((65 <=? n) && (n <=? 90))%nat then ascii_of_nat (n + 32) else a.

(** [s.toLowerCase()]. *)
Fixpoint toLowerCase (s : string) : string :=
  match s with
  | String a s' => String (lower_char a) (toLowerCase s')
  | EmptyString => EmptyString
  end.

(** Value of a character of the class [[0-9a-f]]. *)
Definition hex_digit (a : ascii) : option Z :=
  let n := nat_of_ascii a in
  if ((48 <=? n) && (n <=? 57))%nat then Some (Z.of_nat n - 48)%Z
  else if ((97 <=? n) && (n <=? 102))%nat then Some (Z.of_nat n - 87)%Z
  else None.

Fixpoint all_hex (s : string) : bool :=
  match s with
  | String a s' =>
      match hex_digit a with Some _ => all_hex s' | None => false end
  | EmptyString => true
  end.

(** [reHex.exec(format)] with [reHex = /^#([0-9a-f]{3,8})$/]: the
    captured digits. *)
Definition reHex (format : string) : option string :=
  match format with
  | String "#" digits =>
      if ((3 <=? String.length digits) && (String.length digits <=? 8))%nat
         && all_hex digits
      then Some digits else None
  | _ => None
  end.

(** [parseInt(digits, 16)] on a string of hexadecimal digits. *)
Fixpoint parseInt16_from (acc : Z) (digits : string) : Z :=
  match digits with
  | String a s' =>
      match hex_digit a with
      | Some d => parseInt16_from (acc * 16 + d)%Z s'
      | None => acc
      end
  | EmptyString => acc
  end.

Definition parseInt16 (digits : string) : Z := parseInt16_from 0%Z digits.

(** [rgbn(n)]. *)
Definition rgbn (n : Z) : Color :=
  RgbColor (mkRgb (of_Z (Z.land (Z.shiftr n 16) 255))
                  (of_Z (Z.land (Z.shiftr n 8) 255))
                  (of_Z (Z.land n 255)) 1).

(** [rgba(r, g, b, a)]. *)
Definition rgba (r g b a : float) : Color :=
  if a <=? 0 then RgbColor (mkRgb nan nan nan a) else RgbColor (mkRgb r g b a).

(** [d3.color(format)]; [other] parses the lower-cased, trimmed string
    when it is not in hexadecimal notation.  The bit operations of the
    source act on the low 32 bits; on the values that occur they agree
    with the operations of [Z]. *)
Definition color (other : string -> option Color) (format : string)
  : option Color :=
  let format := toLowerCase (trim format) in
  match reHex format with
  | Some digits =>
      let l := String.length digits in
      let m := parseInt16 digits in
      if Nat.eqb l 6 then Some (rgbn m)
      else if Nat.eqb l 3 then
        Some (RgbColor (mkRgb
          (of_Z (Z.lor (Z.land (Z.shiftr m 8) 15) (Z.land (Z.shiftr m 4) 240)))
          (of_Z (Z.lor (Z.land (Z.shiftr m 4) 15) (Z.land m 240)))
          (of_Z (Z.lor (Z.shiftl (Z.land m 15) 4) (Z.land m 15))) 1))
      else if Nat.eqb l 8 then
        Some (rgba (of_Z (Z.land (Z.shiftr m 24) 255))
                   (of_Z (Z.land (Z.shiftr m 16) 255))
                   (of_Z (Z.land (Z.shiftr m 8) 255))
                   (of_Z (Z.land m 255) / 255))
      else if Nat.eqb l 4 then
        Some (rgba
          (of_Z (Z.lor (Z.land (Z.shiftr m 12) 15) (Z.land (Z.shiftr m 8) 240)))
          (of_Z (Z.lor (Z.land (Z.shiftr m 8) 15) (Z.land (Z.shiftr m 4) 240)))
          (of_Z (Z.lor (Z.land (Z.shiftr m 4) 15) (Z.land m 240)))
          (of_Z (Z.lor (Z.shiftl (Z.land m 15) 4) (Z.land m 15)) / 255))
      else None
  | None => other format
  end.

(** [clampi(value)]. *)
Definition clampi (value : float) : float :=
  Math_max 0 (Math_min 255 (or_else (Math_round value) 0)).

(** [hex(value)]: two lowercase hexadecimal digits. *)
Definition hex (value : float) : string :=
  let value := clampi value in
  (if value <? 16 then "0" else "") ++ JS.toString16 (trunc_Z value).

(** [Rgb.prototype.formatHex]. *)
Definition rgb_formatHex (o : Rgb) : string :=
  "#" ++ hex (r o) ++ hex (g o) ++ hex (b o).

Section Conversions.

(** [Hsl.prototype.rgb]. *)
Variable hsl_rgb : float -> float -> float -> float -> Rgb.

(** [color.rgb()]. *)
Definition to_rgb (o : Color) : Rgb :=
  match o with
  | RgbColor c => c
  | HslColor h s l a => hsl_rgb h s l a
  end.

(** [color.formatHex()]. *)
Definition formatHex (o : Color) : string := rgb_formatHex (to_rgb o).

Variable other : string -> option Color.

(** [d3.rgb(specifier)]: an unparsable specifier gives [new Rgb], whose
    channels are undefined and behave as [NaN] in arithmetic. *)
Definition rgb (specifier : string) : Rgb :=
  match color other specifier with
  | Some o => to_rgb o
  | None => mkRgb nan nan nan nan
  end.

(** The CIELAB arithmetic: [hclConvert] on an [Rgb] and
    [Hcl.prototype.rgb]. *)
Variable rgb2lch : Rgb -> Hcl.
Variable lch2rgb : Hcl -> Rgb.

(** [d3.lch(specifier)]; the result is always an object. *)
Definition lch (specifier : string) : Hcl := rgb2lch (rgb specifier).

(** [d3.lch(color)] on a parsed colour. *)
Definition lch_of_color (o : Color) : Hcl := rgb2lch (to_rgb o).

(** [d3.lch(l, c, h)]. *)
Definition lch3 (l c h : float) : Hcl := mkHcl h c l 1.

(** [Hcl.prototype.formatHex]. *)
Definition hcl_formatHex (o : Hcl) : string := rgb_formatHex (lch2rgb o).

End Conversions.

End D3.

(** ** The colour utilities *)

Module ColorUtils.

Import JSNumber.

Local Open Scope float_scope.

Record ColorFormats : Type :=
  mkColorFormats { hex : string; rgb : string; hsl : string; lch : string }.

(** The object returned by [checkContrast]. *)
Record Contrast : Type :=
  mkContrast { ratio : string; aa : bool; aaa : bool; aaLarge : bool }.

Section WithEnvironment.

(** The parts of d3-color that are not modelled. *)
Variable other : string -> option D3.Color.
Variable hsl_rgb : float -> float -> float -> float -> D3.Rgb.
Variable formatRgb : D3.Color -> string.
Variable formatHsl : D3.Color -> string.
Variable rgb2lch : D3.Rgb -> D3.Hcl.
Variable lch2rgb : D3.Hcl -> D3.Rgb.

(** [Math.pow], which ECMAScript leaves implementation-approximated, and
    [Number::toString], as used by template literals. *)
Variable Math_pow : float -> float -> float.
Variable Number_toString : float -> string.

Let d3_color := D3.color other.
Let d3_rgb := D3.rgb hsl_rgb other.
Let d3_lch := D3.lch hsl_rgb other rgb2lch.
Let formatHex := D3.formatHex hsl_rgb.
Let lch_formatHex := D3.hcl_formatHex lch2rgb.

Definition normalizeHex (hex : string) : string :=
  match d3_color hex with
  | Some color => formatHex color
  | None => "#000000"
  end.

Definition getColorFormats (colorStr : string) : ColorFormats :=
  match d3_color colorStr with
  | None => mkColorFormats "#000000" "rgb(0,0,0)" "hsl(0,0%,0%)" "lch(0 0 0)"
  | Some color =>
      let hex := formatHex color in
      let rgb := formatRgb color in
      let hsl := formatHsl color in
      let lchVal := D3.lch_of_color hsl_rgb rgb2lch color in
      let lchStr :=
        "lch(" ++ Number_toString (Math_round (D3.l lchVal)) ++ " "
               ++ Number_toString (Math_round (D3.c lchVal)) ++ " "
               ++ Number_toString (Math_round (or_else (D3.h lchVal) 0)) ++ ")" in
      mkColorFormats hex rgb hsl lchStr
  end.

(** [d3.lch] always returns an object, so the guard [if (!color)] of the
    harmony functions is never taken. *)
Definition getShades (hex : string) : list string :=
  let color := d3_lch hex in
  let l := or_else (D3.l color) 0 in
  let c := or_else (D3.c color) 0 in
  let h := or_else (D3.h color) 0 in
  [ lch_formatHex (D3.lch3 (l * 0.8) c h);
    lch_formatHex (D3.lch3 (l * 0.6) c h);
    lch_formatHex (D3.lch3 (l * 0.4) c h) ].

Definition getTones (hex : string) : list string :=
  let color := d3_lch hex in
  let l := or_else (D3.l color) 0 in
  let c := or_else (D3.c color) 0 in
  let h := or_else (D3.h color) 0 in
  [ lch_formatHex (D3.lch3 l (c * 0.7) h);
    lch_formatHex (D3.lch3 l (c * 0.4) h);
    lch_formatHex (D3.lch3 l (c * 0.1) h) ].

Definition getComplementary (hex : string) : string :=
  let color := d3_lch hex in
  let h := or_else (D3.h color) 0 in
  lch_formatHex (D3.lch3 (D3.l color) (D3.c color) (rem (h + 180) 360)).

Definition adjustColor (hex : string) (brightness saturation warmth : float)
  : string :=
  let color := d3_lch hex in
  let newL := Math_max 0 (Math_min 100 (D3.l color + brightness)) in
  let newC := Math_max 0 (D3.c color * saturation) in
  let newH := rem (or_else (D3.h color) 0 + warmth + 360) 360 in
  lch_formatHex (D3.lch3 newL newC newH).

(** The inner function [getLuminance]; [a[i]] on the three-element array
    is [nth i a NaN]. *)
Definition getLuminance (c : D3.Rgb) : float :=
  let a :=
    map (fun v =>
           let v := v / 255 in
           if v <=? 0.03928 then v / 12.92 else Math_pow ((v + 0.055) / 1.055) 2.4)
        [D3.r c; D3.g c; D3.b c] in
  nth 0 a nan * 0.2126 + nth 1 a nan * 0.7152 + nth 2 a nan * 0.0722.

Definition checkContrast (foreground background : string) : Contrast :=
  let f := d3_rgb foreground in
  let b := d3_rgb background in
  let l1 := getLuminance f in
  let l2 := getLuminance b in
  let ratio := (Math_max l1 l2 + 0.05) / (Math_min l1 l2 + 0.05) in
  mkContrast (toFixed2 Number_toString ratio)
             (4.5 <=? ratio) (7 <=? ratio) (3 <=? ratio).

End WithEnvironment.

End ColorUtils.

(** ** The shareable link of [App.tsx] *)

Module App.

Record State : Type := mkState { palette : list string; selectedColor : string }.

(** The initial state of the component. *)
Definition initial : State :=
  mkState ["#141414"; "#F27D26"; "#E4E3E0"; "#8E9299"; "#FFFFFF"] "#141414".

(** [c.replace('#', '')]: the first occurrence of the character is
    removed. *)
Fixpoint replace_hash (c : string) : string :=
  match c with
  | String a c' => if Ascii.eqb a "#" then c' else String a (replace_hash c')
  | EmptyString => EmptyString
  end.

(** The value given to the [colors] parameter by [updateUrl]. *)
Definition updateUrl (colors : list string) : string :=
  JS.join "," (map replace_hash colors).

Section WithEnvironment.

Variable other : string -> option D3.Color.
Variable hsl_rgb : float -> float -> float -> float -> D3.Rgb.

(** The effect that restores the palette from [params.get('colors')];
    [None] is an absent parameter, and the empty string is falsy. *)
Definition restore (colors : option string) (st : State) : State :=
  match colors with
  | None | Some EmptyString => st
  | Some colors =>
      let colorList :=
        map (fun c => ColorUtils.normalizeHex other hsl_rgb ("#" ++ c))
            (JS.split "," colors) in
      if Nat.eqb (List.length colorList) 5
      then mkState colorList (nth 0 colorList "undefined")
      else st
  end.

End WithEnvironment.

End App.

(** ** Notions used to state the properties of the colour utilities *)

Module ColorSpec.

(** The lowercase hexadecimal digit of value [d]. *)
Definition digit_char (d : Z) : ascii :=
  if d <? 10 then ascii_of_nat (Z.to_nat (d + 48))
  else ascii_of_nat (Z.to_nat (d + 87)).

Fixpoint no_space (s : string) : bool :=
  match s with
  | String a s' => negb (D3.is_space a) && no_space s'
  | EmptyString => true
  end.

(** The integers [0, 1, ..., n-1]. *)
Definition below (n : nat) : list Z := map Z.of_nat (seq 0 n).

(** The black record returned by [getColorFormats] on a parse failure. *)
Definition black_formats : ColorUtils.ColorFormats :=
  ColorUtils.mkColorFormats "#000000" "rgb(0,0,0)" "hsl(0,0%,0%)" "lch(0 0 0)".

(** A reference parser for the non-hexadecimal syntaxes that accepts
    nothing, and a reference [Hsl.prototype.rgb], never called on the
    colours it yields. *)
Definition no_other (format : string) : option D3.Color := None.

Definition no_hsl (h s l a : float) : D3.Rgb := D3.mkRgb nan nan nan nan.

(** [Number::toString] on the numbers that are not finite. *)
Definition toString_nonfinite (x : float) : string :=
  if is_nan x then "NaN"
  else if PrimFloat.ltb x 0 then "-Infinity" else "Infinity".

End ColorSpec.

(** ** Notions used to state the properties of the number arithmetic *)

Module NumberSpec.

Local Open Scope float_scope.

(** Equality of two numbers as values: [NaN] with [NaN], and [+0] with
    [-0]. *)
Definition same_number (a b : float) : bool :=
  (is_nan a && is_nan b) || (a =? b).

(** [clamp(x, lo, hi)] as the specification words it. *)
Definition clamp (x lo hi : float) : float :=
  if x <? lo then lo else if hi <? x then hi else x.

(** A reference [Math.pow] for positive exponents, by repeated squaring
    for the integer part of the exponent and repeated square roots for
    its binary fraction. *)
Fixpoint pow_pos (x : float) (p : positive) : float :=
  match p with
  | xH => x
  | xO p' => let t := pow_pos x p' in t * t
  | xI p' => let t := pow_pos x p' in x * (t * t)
  end.

Fixpoint pow_frac (steps : nat) (bit : Z) (root : float) (frac : Z)
    (acc : float) : float :=
  match steps with
  | O => acc
  | S steps' =>
      let root' := sqrt root in
      let acc' := if Z.testbit frac (bit - 1) then acc * root' else acc in
      pow_frac steps' (bit - 1)%Z root' frac acc'
  end.

Definition pow_by_roots (x y : float) : float :=
  match Prim2SF y with
  | S754_finite false m e =>
      if (0 <=? e)%Z then
        match (Zpos m * 2 ^ e)%Z with Zpos p => pow_pos x p | _ => 1 end
      else
        let k := (- e)%Z in
        let int_part :=
          match (Zpos m / 2 ^ k)%Z with Zpos p => pow_pos x p | _ => 1 end in
        pow_frac (Z.to_nat k) k x (Zpos m mod 2 ^ k)%Z int_part
  | S754_zero _ => 1
  | _ => nan
  end.

End NumberSpec.

(** ** Further notions for the quantizer *)

Module QuantizerMore.

Import Quantizer.

(** Sum of the occurrence counts of a list of buckets. *)
Definition total (buckets : list (string * Z)) : Z :=
  fold_right (fun e s => snd e + s) 0 buckets.

(** The three channels of a pixel are 8-bit values. *)
Definition is_8bit (p : pixel) : Prop :=
  0 <= r p <= 255 /\ 0 <= g p <= 255 /\ 0 <= b p <= 255.

(** The colour emitted for the bucket of a pixel. *)
Definition bucket_color (p : pixel) : string :=
  rgbToHex (Some (round_to_factor (r p))) (Some (round_to_factor (g p)))
           (Some (round_to_factor (b p))).

(** The bucket values of 8-bit channels: [0, 32, ..., 256]. *)
Definition levels : list Z := map (fun k => 32 * Z.of_nat k) (seq 0 9).

(** The colour emitted for a triple of bucket values. *)
Definition level_color (t : Z * (Z * Z)) : string :=
  rgbToHex (Some (fst t)) (Some (fst (snd t))) (Some (snd (snd t))).

(** All triples of bucket values of 8-bit channels. *)
Definition level_triples : list (Z * (Z * Z)) :=
  list_prod levels (list_prod levels levels).

(** Decision of [NoDup] on strings. *)
Fixpoint nodupb (l : list string) : bool :=
  match l with
  | [] => true
  | x :: t => negb (existsb (String.eqb x) t) && nodupb t
  end.

End QuantizerMore.

(** ** Further notions for the number arithmetic *)

Module NumberMore.

Import JSNumber.

Local Open Scope float_scope.

(** The mantissa and exponent of the integer [p < 2^53] as a binary64
    number: the mantissa is shifted to 53 digits. *)
Definition normal_of_pos (p : positive) : positive * Z :=
  match (53 - Zpos (digits2_pos p))%Z with
  | Zpos d => (Pos.iter xO p d, Zneg d)
  | _ => (p, 0%Z)
  end.

(** The clamp of [clampi], applied to an already rounded number. *)
Definition clamp_int (y : float) : float :=
  Math_max 0 (Math_min 255 (or_else y 0)).

End NumberMore.

(** ** The remaining harmony functions and event handlers *)

Module Harmony.

Import JSNumber.

Local Open Scope float_scope.

Section WithEnvironment.

Variable other : string -> option D3.Color.
Variable hsl_rgb : float -> float -> float -> float -> D3.Rgb.
Variable rgb2lch : D3.Rgb -> D3.Hcl.
Variable lch2rgb : D3.Hcl -> D3.Rgb.

Let d3_lch := D3.lch hsl_rgb other rgb2lch.
Let lch_formatHex := D3.hcl_formatHex lch2rgb.

Definition getAnalogous (hex : string) : list string :=
  let color := d3_lch hex in
  let h := or_else (D3.h color) 0 in
  let l := or_else (D3.l color) 0 in
  let c := or_else (D3.c color) 0 in
  [ lch_formatHex (D3.lch3 l c (rem (h + 30) 360));
    lch_formatHex (D3.lch3 l c (rem (h - 30 + 360) 360)) ].

Definition getTriads (hex : string) : list string :=
  let color := d3_lch hex in
  let h := or_else (D3.h color) 0 in
  let l := or_else (D3.l color) 0 in
  let c := or_else (D3.c color) 0 in
  [ lch_formatHex (D3.lch3 l c (rem (h + 120) 360));
    lch_formatHex (D3.lch3 l c (rem (h + 240) 360)) ].

End WithEnvironment.

End Harmony.

Module Handlers.

(** [updatePaletteColor(newColor)]: the new state, and the value written
    to the link by [updateUrl(newPalette)]. *)
Definition updatePaletteColor (newColor : string) (st : App.State)
  : App.State * string :=
  let newPalette :=
    map (fun c => if String.eqb c (App.selectedColor st) then newColor else c)
        (App.palette st) in
  (App.mkState newPalette newColor, App.updateUrl newPalette).

(** The click on a suggested palette [p]: [setPalette(p)],
    [setSelectedColor(p[0])], [updateUrl(p)]. *)
Definition applySuggested (p : list string) : App.State * string :=
  (App.mkState p (nth 0 p "undefined"), App.updateUrl p).

(** The palettes offered under "Explorar paletas similares". *)
Definition suggested : list (list string) :=
  [ ["#2C3E50"; "#E74C3C"; "#ECF0F1"; "#3498DB"; "#2980B9"];
    ["#1B1B1B"; "#FFD700"; "#F5F5F5"; "#C0C0C0"; "#808080"];
    ["#2D5A27"; "#F1C40F"; "#FFFFFF"; "#E67E22"; "#D35400"] ].

(** The invariant of the component state: five colours, one of which is
    the selected colour. *)
Definition consistent (st : App.State) : Prop :=
  List.length (App.palette st) = 5%nat
  /\ In (App.selectedColor st) (App.palette st).

End Handlers.

(** ** Canonical colour strings *)

Module Canonical.

(** A colour string in the form produced by [formatHex]: a hash sign and
    six digits of the class [[0-9a-f]]. *)
Definition is_canonical (s : string) : bool :=
  match s with
  | String "#" digits => Nat.eqb (String.length digits) 6 && D3.all_hex digits
  | _ => false
  end.

End Canonical.

(** ** Notions used to state the properties of rounding *)

Module RoundSpec.

(** The result of rounding, from the rounded mantissa and its exponent. *)
Definition finish (s : bool) (m e : Z) : spec_float :=
  match m with
  | Z0 => S754_zero s
  | Zpos p => if e <=? emax - prec then S754_finite s p e else S754_infinity s
  | Zneg _ => S754_nan
  end.

(** The state of the shifter after [j] steps from the exact mantissa
    [M]: the mantissa is [M / 2^j], and the round and sticky bits are
    clear when no digit was lost. *)
Definition shifted (M : Z) (j : positive) (mrs : shr_record) : Prop :=
  shr_m mrs = M / 2 ^ Zpos j
  /\ (M mod 2 ^ Zpos j = 0 -> shr_r mrs = false /\ shr_s mrs = false).

End RoundSpec.

(** ** The exact value of a number *)

Module NumberValue.

Import QArith.

(** The rational number [z * 2^e]. *)
Definition dyadic (z e : Z) : Q := inject_Z z * 2 ^ e.

(** The exact value of a finite number; [NaN] and the infinities have
    none. *)
Definition number_value (x : float) : option Q :=
  match Prim2SF x with
  | S754_zero _ => Some 0
  | S754_finite s m e => Some (dyadic (if s then Zneg m else Zpos m) e)
  | _ => None
  end.

End NumberValue.

(** ** A reference environment for the LCH conversions *)

Module Observed.

(** A reference environment in which the LCH colour handed to the
    formatter can be read off the result: the conversion to LCH reports
    a fixed colour, and the conversion back copies hue, chroma and
    lightness into the red, green and blue channels. *)
Definition lch_fixed (o : D3.Hcl) (_ : D3.Rgb) : D3.Hcl := o.

Definition lch_channels (o : D3.Hcl) : D3.Rgb :=
  D3.mkRgb (D3.h o) (D3.c o) (D3.l o) 1.

End Observed.

(* ================================================================== *)
(** * Proofs *)

Import Quantizer QuantizerSpec.

Example quantizer_scenario :
  getDominantColors (repeat (mkPixel 20 20 20) 60 ++ repeat (mkPixel 250 10 10) 40)%list 2
  = ["#202020"; "#1000000"].
Proof. vm_compute. reflexivity. Qed.

(** ** Lists: relative order of two elements *)

Section Precedes.

Context {A : Type}.

Lemma precedes_nth_error (l : list A) (i j : nat) (x y : A) :
  (i < j)%nat -> nth_error l i = Some x -> nth_error l j = Some y ->
  precedes x y l.
Proof.
  intros Hij Hi Hj.
  destruct (nth_error_split l i Hi) as (l1 & t & -> & Hlen).
  rewrite nth_error_app2 in Hj by lia.
  replace (j - List.length l1)%nat with (S (j - List.length l1 - 1)) in Hj by lia.
  simpl in Hj.
  destruct (nth_error_split t _ Hj) as (l2 & l3 & -> & _).
  now exists l1, l2, l3.
Qed.

Lemma precedes_app_l (x y : A) (l l' : list A) :
  precedes x y l -> precedes x y (l ++ l').
Proof.
  intros (l1 & l2 & l3 & ->).
  exists l1, l2, (l3 ++ l')%list.
  now rewrite <- !app_assoc, <- !app_comm_cons, <- app_assoc.
Qed.

Lemma precedes_firstn (x y : A) (n : nat) (l : list A) :
  precedes x y (firstn n l) -> precedes x y l.
Proof.
  intros H. rewrite <- (firstn_skipn n l). now apply precedes_app_l.
Qed.

Lemma precedes_snoc (x y z : A) (l : list A) :
  precedes x y (l ++ [z]) -> precedes x y l \/ (y = z /\ In x l).
Proof.
  intros (l1 & l2 & l3 & E).
  destruct l3 as [|w l3 _] using rev_ind.
  - right.
    replace (l1 ++ x :: l2 ++ [y])%list with ((l1 ++ x :: l2) ++ [y])%list in E
      by now rewrite <- app_assoc.
    apply app_inj_tail in E as [-> ->].
    split; [reflexivity | apply in_elt].
  - left.
    replace (l1 ++ x :: l2 ++ y :: l3 ++ [w])%list
      with ((l1 ++ x :: l2 ++ y :: l3) ++ [w])%list in E
      by now rewrite <- !app_assoc, <- !app_comm_cons, <- app_assoc.
    apply app_inj_tail in E as [-> _].
    now exists l1, l2, l3.
Qed.

Lemma precedes_In (x y : A) (l : list A) :
  precedes x y l -> In x l /\ In y l.
Proof.
  intros (l1 & l2 & l3 & ->). split.
  - apply in_elt.
  - apply in_or_app. right. right. apply in_elt.
Qed.

Lemma filter_eq_cons (p : A -> bool) (l : list A) (x : A) (t : list A) :
  filter p l = x :: t ->
  exists l1 l2, l = (l1 ++ x :: l2)%list /\ filter p l2 = t.
Proof.
  induction l as [|a l IH]; simpl; [discriminate|].
  destruct (p a) eqn:Ea.
  - intros [= -> <-]. now exists [], l.
  - intros E. destruct (IH E) as (l1 & l2 & -> & H2).
    now exists (a :: l1), l2.
Qed.

Lemma filter_eq_app (p : A -> bool) (l a b : list A) :
  filter p l = (a ++ b)%list ->
  exists la lb, l = (la ++ lb)%list /\ filter p lb = b.
Proof.
  revert l. induction a as [|x a IH]; intros l E.
  - now exists [], l.
  - simpl in E. destruct (filter_eq_cons _ _ _ _ E) as (l1 & l2 & -> & E2).
    destruct (IH _ E2) as (la & lb & -> & Eb).
    exists (l1 ++ x :: la)%list, lb. split; [|assumption].
    now rewrite <- app_assoc.
Qed.

Lemma precedes_filter (p : A -> bool) (x y : A) (l : list A) :
  precedes x y (filter p l) -> precedes x y l.
Proof.
  intros (a & m & c & E).
  destruct (filter_eq_app _ _ _ _ E) as (la & lb & -> & Eb).
  destruct (filter_eq_cons _ _ _ _ Eb) as (l1 & l2 & -> & E2).
  destruct (filter_eq_app _ _ _ _ E2) as (lm & lc & -> & Ec).
  destruct (filter_eq_cons _ _ _ _ Ec) as (l3 & l4 & -> & _).
  exists (la ++ l1)%list, (lm ++ l3)%list, l4.
  now rewrite <- !app_assoc.
Qed.

Lemma filter_precedes (p : A -> bool) (x y : A) (l : list A) :
  p x = true -> p y = true -> precedes x y l -> precedes x y (filter p l).
Proof.
  intros Hx Hy (l1 & l2 & l3 & ->).
  exists (filter p l1), (filter p l2), (filter p l3).
  rewrite filter_app. simpl. rewrite Hx, filter_app. simpl. now rewrite Hy.
Qed.

End Precedes.

Lemma precedes_map {A B : Type} (f : A -> B) (x y : A) (l : list A) :
  precedes x y l -> precedes (f x) (f y) (map f l).
Proof.
  intros (l1 & l2 & l3 & ->).
  exists (map f l1), (map f l2), (map f l3).
  now rewrite map_app, map_cons, map_app, map_cons.
Qed.

(** ** The stable sort by a descending integer rank *)

Section SortDesc.

Context {A : Type} (rank : A -> Z).

Let cmp (a b : A) : Z := rank b - rank a.

Lemma insert_perm (x : A) (l : list A) :
  Permutation (JS.insert cmp x l) (x :: l).
Proof.
  induction l as [|y l IH]; simpl; [reflexivity|].
  destruct (0 <? cmp x y); [|reflexivity].
  rewrite IH. apply perm_swap.
Qed.

Lemma sort_perm (l : list A) : Permutation (JS.sort cmp l) l.
Proof.
  induction l as [|x l IH]; simpl; [reflexivity|].
  rewrite insert_perm. now constructor.
Qed.

Lemma insert_sorted (x : A) (l : list A) :
  StronglySorted (desc rank) l -> StronglySorted (desc rank) (JS.insert cmp x l).
Proof.
  induction 1 as [|y l Hs IH Hy]; simpl.
  - repeat constructor.
  - destruct (0 <? cmp x y) eqn:E.
    + apply Z.ltb_lt in E. constructor; [assumption|].
      apply Forall_forall. intros z Hz.
      apply (Permutation_in _ (insert_perm x l)) in Hz.
      destruct Hz as [<- | Hz].
      * unfold desc, cmp in *. lia.
      * now apply (proj1 (Forall_forall _ _) Hy).
    + apply Z.ltb_ge in E. constructor.
      * now constructor.
      * constructor; [unfold desc, cmp in *; lia|].
        eapply Forall_impl; [|exact Hy].
        intros z Hz. unfold desc, cmp in *. lia.
Qed.

Lemma sort_sorted (l : list A) : StronglySorted (desc rank) (JS.sort cmp l).
Proof.
  induction l as [|x l IH]; simpl; [constructor|].
  now apply insert_sorted.
Qed.

(** Stability: the elements of one rank keep their relative order. *)
Lemma insert_stable (n : Z) (x : A) (l : list A) :
  filter (fun a => rank a =? n) (JS.insert cmp x l)
  = filter (fun a => rank a =? n) (x :: l).
Proof.
  induction l as [|y l IH]; [reflexivity|].
  cbn [JS.insert]. destruct (0 <? cmp x y) eqn:E; [|reflexivity].
  apply Z.ltb_lt in E. unfold cmp in E.
  cbn [filter] in *. rewrite IH.
  destruct (rank y =? n) eqn:Ey, (rank x =? n) eqn:Ex; try reflexivity.
  apply Z.eqb_eq in Ey, Ex. lia.
Qed.

Lemma sort_stable (n : Z) (l : list A) :
  filter (fun a => rank a =? n) (JS.sort cmp l)
  = filter (fun a => rank a =? n) l.
Proof.
  induction l as [|x l IH]; [reflexivity|].
  cbn [JS.sort fold_right]. fold (JS.sort cmp l).
  rewrite insert_stable. cbn [filter]. now rewrite IH.
Qed.

Lemma sort_precedes_tie (x y : A) (l : list A) :
  rank x = rank y -> precedes x y (JS.sort cmp l) -> precedes x y l.
Proof.
  intros E H.
  apply (precedes_filter (fun a => rank a =? rank x)).
  rewrite <- sort_stable.
  apply filter_precedes; [apply Z.eqb_refl | apply Z.eqb_eq; auto | assumption].
Qed.

(** A list sorted by descending rank is determined by its rank classes:
    whatever algorithm an engine uses, a stable sort returns this list. *)
Lemma sorted_classes_unique (l1 l2 : list A) :
  StronglySorted (desc rank) l1 -> StronglySorted (desc rank) l2 ->
  (forall n, filter (fun a => rank a =? n) l1 = filter (fun a => rank a =? n) l2) ->
  l1 = l2.
Proof.
  intros H1. revert l2.
  induction H1 as [|x l1 Hs1 IH Hx]; intros l2 H2 Hc.
  - destruct l2 as [|y l2]; [reflexivity|].
    specialize (Hc (rank y)). simpl in Hc. rewrite Z.eqb_refl in Hc. discriminate.
  - destruct H2 as [|y l2 Hs2 Hy].
    + specialize (Hc (rank x)). simpl in Hc. rewrite Z.eqb_refl in Hc. discriminate.
    + assert (Exy : rank x = rank y).
      { assert (In y (x :: l1)) as Hiny.
        { pose proof (Hc (rank y)) as E. cbn [filter] in E.
          rewrite (Z.eqb_refl (rank y)) in E.
          assert (In y (filter (fun a => rank a =? rank y) (x :: l1))) as Hin
            by (cbn [filter]; rewrite E; now left).
          now apply filter_In in Hin. }
        assert (In x (y :: l2)) as Hinx.
        { pose proof (Hc (rank x)) as E. cbn [filter] in E.
          rewrite (Z.eqb_refl (rank x)) in E.
          assert (In x (filter (fun a => rank a =? rank x) (y :: l2))) as Hin
            by (cbn [filter]; rewrite <- E; now left).
          now apply filter_In in Hin. }
        rewrite Forall_forall in Hx, Hy. unfold desc in *.
        destruct Hiny as [->|Hiny]; [reflexivity|].
        destruct Hinx as [->|Hinx]; [reflexivity|].
        specialize (Hx _ Hiny). specialize (Hy _ Hinx). lia. }
      pose proof (Hc (rank x)) as E. cbn [filter] in E.
      rewrite Z.eqb_refl, <- Exy, Z.eqb_refl in E.
      injection E as <- Et. f_equal. apply IH; [assumption|].
      intros n. specialize (Hc n). cbn [filter] in Hc.
      destruct (rank x =? n); [now injection Hc | assumption].
Qed.

End SortDesc.

(** ** The bucket histogram *)

Module Histogram.

Lemma entries_of_keys (pixels : list pixel) :
  entries pixels = of_keys (map bucket_key pixels).
Proof.
  unfold entries, of_keys. generalize (@nil (string * Z)).
  induction pixels as [|p ps IH]; intros acc; simpl; [reflexivity | apply IH].
Qed.

Lemma of_keys_snoc (keys : list string) (k : string) :
  of_keys (keys ++ [k]) = bump k (of_keys keys).
Proof. unfold of_keys. now rewrite fold_left_app. Qed.

Lemma bump_keys_in (k : string) (bs : list (string * Z)) :
  In k (map fst bs) -> map fst (bump k bs) = map fst bs.
Proof.
  induction bs as [|[k' n] bs IH]; simpl; [tauto|].
  intros H. destruct (String.eqb_spec k' k) as [E|N]; [reflexivity|].
  simpl. f_equal. apply IH. destruct H; [contradiction | assumption].
Qed.

Lemma bump_keys_notin (k : string) (bs : list (string * Z)) :
  ~ In k (map fst bs) -> map fst (bump k bs) = (map fst bs ++ [k])%list.
Proof.
  induction bs as [|[k' n] bs IH]; simpl; [reflexivity|].
  intros H. destruct (String.eqb_spec k' k) as [E|N]; [tauto|].
  simpl. f_equal. apply IH. tauto.
Qed.

Lemma lookup_bump (k k' : string) (bs : list (string * Z)) :
  lookup k (bump k' bs)
  = if String.eqb k' k
    then Some (match lookup k bs with Some n => n | None => 0 end + 1)
    else lookup k bs.
Proof.
  induction bs as [|[k0 n] bs IH]; simpl.
  - destruct (String.eqb_spec k' k); reflexivity.
  - destruct (String.eqb_spec k0 k') as [E0|N0]; simpl.
    + subst k0. destruct (String.eqb_spec k' k); reflexivity.
    + destruct (String.eqb_spec k0 k) as [E1|N1].
      * subst k0. destruct (String.eqb_spec k' k); [congruence | reflexivity].
      * apply IH.
Qed.

Lemma lookup_In (k : string) (n : Z) (bs : list (string * Z)) :
  lookup k bs = Some n -> In (k, n) bs.
Proof.
  induction bs as [|[k' m] bs IH]; simpl; [discriminate|].
  destruct (String.eqb_spec k' k) as [->|N].
  - intros [= ->]. now left.
  - intros H. right. now apply IH.
Qed.

Lemma In_lookup (k : string) (n : Z) (bs : list (string * Z)) :
  NoDup (map fst bs) -> In (k, n) bs -> lookup k bs = Some n.
Proof.
  induction bs as [|[k' m] bs IH]; simpl; [tauto|].
  intros Hnd [E|H]; inversion_clear Hnd as [|? ? Hk Hnd'].
  - injection E as -> ->. now rewrite String.eqb_refl.
  - destruct (String.eqb_spec k' k) as [->|N].
    + exfalso. apply Hk. now apply (in_map fst) in H.
    + now apply IH.
Qed.

Lemma lookup_None (k : string) (bs : list (string * Z)) :
  lookup k bs = None <-> ~ In k (map fst bs).
Proof.
  induction bs as [|[k' m] bs IH]; simpl; [tauto|].
  destruct (String.eqb_spec k' k) as [->|N].
  - split; [discriminate | tauto].
  - rewrite IH. tauto.
Qed.

Lemma first_index_app_in (k : string) (l l' : list string) :
  In k l -> first_index k (l ++ l') = first_index k l.
Proof.
  induction l as [|x l IH]; simpl; [tauto|].
  destruct (String.eqb_spec x k) as [->|N]; [reflexivity|].
  intros [E|H]; [contradiction|]. now rewrite IH.
Qed.

Lemma first_index_app_notin (k : string) (l l' : list string) :
  ~ In k l -> first_index k (l ++ l') = (List.length l + first_index k l')%nat.
Proof.
  induction l as [|x l IH]; simpl; [reflexivity|].
  destruct (String.eqb_spec x k) as [->|N]; [tauto|].
  intros H. rewrite IH by tauto. reflexivity.
Qed.

Lemma first_index_in (k : string) (l : list string) :
  In k l -> (first_index k l < List.length l)%nat.
Proof.
  induction l as [|x l IH]; simpl; [tauto|].
  destruct (String.eqb_spec x k) as [->|N]; [lia|].
  intros [E|H]; [contradiction|]. specialize (IH H). lia.
Qed.

(** The invariants of the counting loop. *)
Lemma of_keys_keys (keys : list string) :
  NoDup (map fst (of_keys keys))
  /\ (forall k, In k (map fst (of_keys keys)) <-> In k keys)
  /\ (forall k1 k2, precedes k1 k2 (map fst (of_keys keys)) ->
        (first_index k1 keys < first_index k2 keys)%nat).
Proof.
  induction keys as [|k keys (Hnd & Hin & Hord)] using rev_ind.
  - repeat split; simpl; try constructor; try tauto.
    intros k1 k2 (l1 & l2 & l3 & E). now destruct l1.
  - rewrite of_keys_snoc.
    destruct (in_dec string_dec k (map fst (of_keys keys))) as [Hk|Hk].
    + rewrite (bump_keys_in _ _ Hk). repeat split.
      * assumption.
      * rewrite in_app_iff. rewrite Hin. tauto.
      * rewrite in_app_iff. simpl. rewrite Hin. intros [H|[<-|[]]]; [assumption|].
        now apply Hin.
      * intros k1 k2 Hp. destruct (precedes_In _ _ _ Hp) as [H1 H2].
        rewrite !first_index_app_in by now apply Hin. now apply Hord.
    + rewrite (bump_keys_notin _ _ Hk). repeat split.
      * apply NoDup_app; [assumption | repeat constructor; simpl; tauto |].
        intros x Hx [<-|[]]. contradiction.
      * rewrite !in_app_iff, Hin. tauto.
      * rewrite !in_app_iff, Hin. tauto.
      * intros k1 k2 Hp. apply precedes_snoc in Hp as [Hp|[-> H1]].
        -- destruct (precedes_In _ _ _ Hp) as [H1 H2].
           rewrite !first_index_app_in by now apply Hin. now apply Hord.
        -- rewrite first_index_app_in by now apply Hin.
           rewrite first_index_app_notin by (intros H; now apply Hk, Hin).
           apply Hin in H1. apply first_index_in in H1. lia.
Qed.

Lemma of_keys_lookup (keys : list string) (k : string) :
  lookup k (of_keys keys)
  = if in_dec string_dec k keys
    then Some (Z.of_nat (count_occ string_dec keys k))
    else None.
Proof.
  induction keys as [|k' keys IH] using rev_ind; [reflexivity|].
  rewrite of_keys_snoc, lookup_bump, IH, count_occ_app. simpl.
  destruct (String.eqb_spec k' k) as [->|N].
  - destruct (string_dec k k); [|contradiction].
    destruct (in_dec string_dec k (keys ++ [k])) as [_|H];
      [|exfalso; apply H, in_elt].
    destruct (in_dec string_dec k keys) as [H|H].
    + f_equal. lia.
    + apply (count_occ_not_In string_dec) in H. rewrite H. reflexivity.
  - destruct (string_dec k' k); [contradiction|].
    rewrite Nat.add_0_r.
    destruct (in_dec string_dec k keys) as [H|H],
             (in_dec string_dec k (keys ++ [k'])) as [H'|H']; try reflexivity.
    + exfalso. apply H', in_or_app. now left.
    + exfalso. apply in_app_or in H' as [H'|[E|[]]]; [contradiction | congruence].
Qed.

End Histogram.

(** ** Bucket keys survive the trip through their string form *)

Module Keys.

Lemma has_char_append (c : ascii) (s t : string) :
  has_char c (s ++ t) = has_char c s || has_char c t.
Proof.
  induction s as [|a s IH]; simpl; [reflexivity|].
  now rewrite IH, orb_assoc.
Qed.

Lemma split_no_sep (sep : ascii) (s : string) :
  has_char sep s = false -> JS.split sep s = [s].
Proof.
  induction s as [|a s IH]; simpl; [reflexivity|].
  intros H. apply orb_false_iff in H as [Ha Hs].
  rewrite Ha, (IH Hs). reflexivity.
Qed.

Lemma split_append (sep : ascii) (s t : string) :
  has_char sep s = false ->
  JS.split sep (s ++ String sep t) = s :: JS.split sep t.
Proof.
  induction s as [|a s IH]; simpl.
  - now rewrite Ascii.eqb_refl.
  - intros H. apply orb_false_iff in H as [Ha Hs].
    rewrite Ha, (IH Hs). reflexivity.
Qed.

Lemma decimal_digits_no_comma (d : Decimal.uint) :
  has_char "," (DecimalString.NilEmpty.string_of_uint d) = false.
Proof. induction d; simpl; auto. Qed.

Lemma toString10_no_comma (z : Z) : has_char "," (JS.toString10 z) = false.
Proof.
  unfold JS.toString10, DecimalString.NilZero.string_of_int,
    DecimalString.NilZero.string_of_uint.
  destruct (Z.to_int z) as [d|d]; destruct d;
    try reflexivity; simpl; apply decimal_digits_no_comma.
Qed.

Lemma Number_toString10 (z : Z) : JS.Number (JS.toString10 z) = Some z.
Proof.
  unfold JS.Number, JS.toString10.
  rewrite DecimalString.NilZero.isi.
  - simpl. now rewrite DecimalZ.of_to.
  - destruct z; simpl; try discriminate.
    intros [= E]. now apply DecimalPos.Unsigned.to_uint_nonnil in E.
  - destruct z; simpl; try discriminate.
    intros [= E]. now apply DecimalPos.Unsigned.to_uint_nonnil in E.
Qed.

Lemma key_parts (r g b : Z) :
  map JS.Number (JS.split "," (key_of r g b)) = [Some r; Some g; Some b].
Proof.
  unfold key_of. cbn [append].
  rewrite split_append by apply toString10_no_comma.
  rewrite split_append by apply toString10_no_comma.
  rewrite split_no_sep by apply toString10_no_comma.
  cbn [map]. now rewrite !Number_toString10.
Qed.

(** The colour emitted for the bucket of pixel [p]. *)
Lemma entry_color_bucket (p : pixel) (n : Z) :
  entry_color (bucket_key p, n)
  = rgbToHex (Some (round_to_factor (r p))) (Some (round_to_factor (g p)))
             (Some (round_to_factor (b p))).
Proof. unfold entry_color, bucket_key. cbn [fst]. now rewrite key_parts. Qed.

End Keys.

(** ** Properties of the quantizer *)

Module QuantizerFacts.

Import Histogram Keys.

Lemma slice0_nonneg {A : Type} (count : Z) (l : list A) :
  0 <= count -> JS.slice0 count l = firstn (Z.to_nat count) l.
Proof.
  intros H. unfold JS.slice0.
  destruct (count <? 0) eqn:E; [apply Z.ltb_lt in E; lia|].
  destruct (Z.le_ge_cases count (Z.of_nat (List.length l))) as [Hle|Hge].
  - now rewrite Z.min_l.
  - rewrite Z.min_r, Nat2Z.id by assumption.
    rewrite !firstn_all2; [reflexivity | lia | lia].
Qed.

Lemma slice0_nil {A : Type} (count : Z) : JS.slice0 count (@nil A) = [].
Proof. unfold JS.slice0. now rewrite firstn_nil. Qed.

Lemma slice0_prefix {A : Type} (count : Z) (l : list A) :
  exists n, JS.slice0 count l = firstn n l.
Proof. unfold JS.slice0. eauto. Qed.

Lemma In_firstn {A : Type} (x : A) (n : nat) (l : list A) :
  In x (firstn n l) -> In x l.
Proof.
  intros H. rewrite <- (firstn_skipn n l). apply in_or_app. now left.
Qed.

Lemma ranked_perm (pixels : list pixel) :
  Permutation (ranked pixels) (entries pixels).
Proof. apply (sort_perm snd). Qed.

Lemma ranked_sorted (pixels : list pixel) :
  StronglySorted (fun a b => snd b <= snd a) (ranked pixels).
Proof. apply (sort_sorted snd). Qed.

Lemma ranked_NoDup (pixels : list pixel) : NoDup (map fst (ranked pixels)).
Proof.
  apply (Permutation_NoDup (l := map fst (entries pixels))).
  - apply Permutation_map. symmetry. apply ranked_perm.
  - rewrite entries_of_keys. apply of_keys_keys.
Qed.

Lemma ranked_In (pixels : list pixel) (k : string) (n : Z) :
  In (k, n) (ranked pixels)
  <-> In k (map bucket_key pixels) /\ n = occurrences k pixels.
Proof.
  pose proof (of_keys_keys (map bucket_key pixels)) as (Hnd & _ & _).
  pose proof (of_keys_lookup (map bucket_key pixels) k) as Hl.
  rewrite <- entries_of_keys in Hnd, Hl.
  split.
  - intros H. apply (Permutation_in _ (ranked_perm pixels)) in H.
    apply (In_lookup _ _ _ Hnd) in H. rewrite H in Hl.
    destruct (in_dec string_dec k (map bucket_key pixels)); [|discriminate].
    injection Hl as ->. now split.
  - intros [Hk ->].
    apply (Permutation_in _ (Permutation_sym (ranked_perm pixels))).
    apply lookup_In. rewrite Hl.
    destruct (in_dec string_dec k (map bucket_key pixels)); [reflexivity|contradiction].
Qed.

Lemma ranked_length (pixels : list pixel) :
  List.length (ranked pixels) = distinct_buckets pixels.
Proof.
  unfold distinct_buckets.
  rewrite (Permutation_length (ranked_perm pixels)).
  rewrite <- (length_map fst).
  apply Permutation_length, NoDup_Permutation.
  - rewrite entries_of_keys. apply of_keys_keys.
  - apply NoDup_nodup.
  - intros k. rewrite nodup_In, entries_of_keys. apply of_keys_keys.
Qed.

Lemma ranked_nil : ranked [] = [].
Proof. reflexivity. Qed.

(** Two ranked buckets of equal count are ordered by the first pixel that
    fell into each of them. *)
Lemma ranked_tie_order (pixels : list pixel) (e1 e2 : string * Z) :
  snd e1 = snd e2 -> precedes e1 e2 (ranked pixels) ->
  (first_index (fst e1) (map bucket_key pixels)
   < first_index (fst e2) (map bucket_key pixels))%nat.
Proof.
  intros E H.
  apply (sort_precedes_tie snd _ _ _ E) in H.
  apply (precedes_map fst) in H.
  rewrite entries_of_keys in H.
  now apply of_keys_keys.
Qed.

End QuantizerFacts.

(** ** Colours emitted for in-range buckets *)

Module QuantizerColors.

Import Histogram Keys QuantizerFacts.

Lemma round_to_factor_small (c : Z) :
  0 <= c < 240 -> exists k, 0 <= k <= 7 /\ round_to_factor c = 32 * k.
Proof.
  intros H. unfold round_to_factor, factor.
  exists ((2 * c + 32) / (2 * 32)). split; [|lia].
  split.
  - apply Z.div_pos; lia.
  - apply Z.lt_succ_r, Z.div_lt_upper_bound; lia.
Qed.

Lemma round_to_factor_large (c : Z) :
  240 <= c <= 255 -> round_to_factor c = 256.
Proof.
  intros H. unfold round_to_factor, factor.
  replace ((2 * c + 32) / (2 * 32)) with 8; [reflexivity|].
  apply Z.div_unique with (r := 2 * c + 32 - 512); lia.
Qed.

Lemma hex_channel_small (k : Z) :
  0 <= k <= 7 -> two_hex_digits (hex_channel (Some (32 * k))) = true.
Proof.
  intros H.
  assert (k = 0 \/ k = 1 \/ k = 2 \/ k = 3 \/ k = 4 \/ k = 5 \/ k = 6 \/ k = 7)
    as E by lia.
  repeat destruct E as [-> | E]; try subst k; reflexivity.
Qed.

Lemma rgbToHex_two_digits (x y z : option Z) :
  two_hex_digits (hex_channel x) = true ->
  two_hex_digits (hex_channel y) = true ->
  two_hex_digits (hex_channel z) = true ->
  is_rrggbb (rgbToHex x y z) = true.
Proof.
  unfold rgbToHex. cbn [map JS.join].
  destruct (hex_channel x) as [|a1 [|a2 [|]]]; try discriminate.
  destruct (hex_channel y) as [|b1 [|b2 [|]]]; try discriminate.
  destruct (hex_channel z) as [|c1 [|c2 [|]]]; try discriminate.
  cbn. intros H1 H2 H3.
  apply andb_true_iff in H1 as [-> ->].
  apply andb_true_iff in H2 as [-> ->].
  apply andb_true_iff in H3 as [-> ->].
  reflexivity.
Qed.

Lemma output_from_pixel (pixels : list pixel) (count : Z) (c : string) :
  In c (getDominantColors pixels count) ->
  exists p, In p pixels /\
    c = rgbToHex (Some (round_to_factor (r p))) (Some (round_to_factor (g p)))
                 (Some (round_to_factor (b p))).
Proof.
  unfold getDominantColors, top_buckets. intros H.
  apply in_map_iff in H as ([k n] & <- & H).
  destruct (slice0_prefix count (ranked pixels)) as [m Em].
  rewrite Em in H. apply In_firstn in H.
  apply ranked_In in H as [H _].
  apply in_map_iff in H as (p & <- & Hp).
  exists p. split; [assumption | apply entry_color_bucket].
Qed.

(** When no channel reaches 240 every emitted colour is a [#rrggbb] string. *)
Lemma colors_valid_below_240 (pixels : list pixel) (count : Z) :
  Forall (channels_below 240) pixels ->
  Forall (fun c => is_rrggbb c = true) (getDominantColors pixels count).
Proof.
  intros Hp. apply Forall_forall. intros c Hc.
  apply output_from_pixel in Hc as (p & Hin & ->).
  apply (proj1 (Forall_forall _ _) Hp) in Hin as (Hr & Hg & Hb).
  apply round_to_factor_small in Hr as (kr & Hkr & ->).
  apply round_to_factor_small in Hg as (kg & Hkg & ->).
  apply round_to_factor_small in Hb as (kb & Hkb & ->).
  apply rgbToHex_two_digits; now apply hex_channel_small.
Qed.

End QuantizerColors.

(** ** The quantizer: statements about [getDominantColors] *)

Module QuantizerClaims.

Import Histogram Keys QuantizerFacts QuantizerColors.

(** C1 (the code departs from the claim).  The quantizer applies no clamp
    before hex encoding: a channel in [[240, 255]] is rounded to 256 and
    encoded with three hex digits.  The single pixel (250,10,10) falls
    into bucket "256,0,0", and the colour returned for it is the
    eight-character string "#1000000", which is not of the form
    [#rrggbb]; the same holds for the bucket of the 100-pixel scenario of
    the specification. *)
Theorem getDominantColors_overflow_not_clamped :
  round_to_factor 250 = 256
  /\ bucket_key (mkPixel 250 10 10) = "256,0,0"
  /\ getDominantColors [mkPixel 250 10 10] 1 = ["#1000000"]
  /\ is_rrggbb "#1000000" = false
  /\ getDominantColors
       (repeat (mkPixel 20 20 20) 60 ++ repeat (mkPixel 250 10 10) 40)%list 2
     = ["#202020"; "#1000000"].
Proof. repeat split; vm_compute; reflexivity. Qed.

(** C2, as stated, fails for negative counts: [slice(0, -1)] drops the
    last bucket instead of returning nothing. *)
Lemma getDominantColors_negative_count :
  -1 <= 0
  /\ getDominantColors [mkPixel 0 0 0; mkPixel 255 255 255] (-1) = ["#000000"]
  /\ getDominantColors [mkPixel 0 0 0; mkPixel 255 255 255] (-1) <> [].
Proof.
  split; [lia | split; [vm_compute; reflexivity | vm_compute; discriminate]].
Qed.

(** C2 (amended).  For every pixel sequence and every count that is not
    negative, the result is the list of distinct buckets, each with its
    number of occurrences, sorted by occurrence count descending and
    truncated to the first [count]; its length is
    [min count distinct_buckets], it never exceeds [count], and a count of
    zero yields the empty palette.  An empty pixel sequence yields the
    empty palette for every count. *)
Theorem getDominantColors_top_count (pixels : list pixel) (count : Z) :
  getDominantColors [] count = []
  /\ (0 <= count ->
      NoDup (map fst (ranked pixels))
      /\ (forall k n, In (k, n) (ranked pixels)
            <-> In k (map bucket_key pixels) /\ n = occurrences k pixels)
      /\ StronglySorted (fun a b => snd b <= snd a) (ranked pixels)
      /\ getDominantColors pixels count
         = map entry_color (firstn (Z.to_nat count) (ranked pixels))
      /\ Z.of_nat (List.length (getDominantColors pixels count))
         = Z.min count (Z.of_nat (distinct_buckets pixels))
      /\ Z.of_nat (List.length (getDominantColors pixels count)) <= count
      /\ (count = 0 -> getDominantColors pixels count = [])).
Proof.
  split.
  - unfold getDominantColors, top_buckets. now rewrite ranked_nil, slice0_nil.
  - intros Hc.
    assert (E : getDominantColors pixels count
                = map entry_color (firstn (Z.to_nat count) (ranked pixels))).
    { unfold getDominantColors, top_buckets. now rewrite slice0_nonneg. }
    assert (L : Z.of_nat (List.length (getDominantColors pixels count))
                = Z.min count (Z.of_nat (distinct_buckets pixels))).
    { rewrite E, length_map, length_firstn, ranked_length. lia. }
    split; [apply ranked_NoDup|].
    split; [intros k n; apply ranked_In|].
    split; [apply ranked_sorted|].
    split; [exact E|].
    split; [exact L|].
    split; [lia|].
    intros ->. rewrite E. reflexivity.
Qed.

Lemma getDominantColors_top_count_witness :
  Z.of_nat (List.length
    (getDominantColors [mkPixel 20 20 20; mkPixel 250 10 10; mkPixel 20 20 20] 1))
  = Z.min 1 (Z.of_nat
      (distinct_buckets [mkPixel 20 20 20; mkPixel 250 10 10; mkPixel 20 20 20])).
Proof.
  apply (getDominantColors_top_count
           [mkPixel 20 20 20; mkPixel 250 10 10; mkPixel 20 20 20] 1).
  lia.
Defined.

(** C10.  [getDominantColors] is a function of its inputs, and its result
    does not depend on the sorting algorithm: any arrangement of the
    bucket entries that is sorted by descending count and keeps the
    entries of equal count in their insertion order yields the same
    output.  Two buckets of equal occurrence count that both reach the
    output appear there in the order in which their keys first occur in
    the pixel sequence. *)
Theorem getDominantColors_tie_order
    (pixels : list pixel) (count : Z) (i j : nat) (k1 k2 : string) (n : Z) :
  nth_error (top_buckets pixels count) i = Some (k1, n) ->
  nth_error (top_buckets pixels count) j = Some (k2, n) ->
  nth_error (getDominantColors pixels count) i = Some (entry_color (k1, n))
  /\ nth_error (getDominantColors pixels count) j = Some (entry_color (k2, n))
  /\ ((i < j)%nat
      <-> (first_index k1 (map bucket_key pixels)
           < first_index k2 (map bucket_key pixels))%nat)
  /\ (forall sorted : list (string * Z),
        StronglySorted (fun a b => snd b <= snd a) sorted ->
        (forall m, filter (fun e => snd e =? m) sorted
                   = filter (fun e => snd e =? m) (entries pixels)) ->
        map entry_color (JS.slice0 count sorted) = getDominantColors pixels count).
Proof.
  intros Hi Hj.
  assert (Hord : forall i j k1 k2,
    nth_error (top_buckets pixels count) i = Some (k1, n) ->
    nth_error (top_buckets pixels count) j = Some (k2, n) ->
    (i < j)%nat ->
    (first_index k1 (map bucket_key pixels)
     < first_index k2 (map bucket_key pixels))%nat).
  { clear. intros i j k1 k2 Hi Hj Hij.
    pose proof (precedes_nth_error _ _ _ _ _ Hij Hi Hj) as Hp.
    unfold top_buckets in Hp.
    destruct (slice0_prefix count (ranked pixels)) as [m Em].
    rewrite Em in Hp. apply precedes_firstn in Hp.
    now apply (ranked_tie_order pixels (k1, n) (k2, n)). }
  split; [unfold getDominantColors; now rewrite nth_error_map, Hi|].
  split; [unfold getDominantColors; now rewrite nth_error_map, Hj|].
  split; [split|].
  - now apply Hord.
  - intros Hf.
    destruct (Nat.lt_trichotomy i j) as [Hlt | [-> | Hgt]]; [assumption | |].
    + rewrite Hi in Hj. injection Hj as ->. lia.
    + pose proof (Hord _ _ _ _ Hj Hi Hgt). lia.
  - intros sorted Hs Hc. unfold getDominantColors, top_buckets, ranked.
    do 2 f_equal.
    apply (sorted_classes_unique snd); [assumption | apply (sort_sorted snd) |].
    intros m. rewrite Hc. symmetry. apply (sort_stable snd).
Qed.

Lemma getDominantColors_tie_order_witness :
  ((0 < 1)%nat
   <-> (first_index "256,0,0" (map bucket_key [mkPixel 250 10 10; mkPixel 20 20 20])
        < first_index "32,32,32" (map bucket_key [mkPixel 250 10 10; mkPixel 20 20 20]))%nat).
Proof.
  apply (getDominantColors_tie_order
           [mkPixel 250 10 10; mkPixel 20 20 20] 2 0 1 "256,0,0" "32,32,32" 1);
    reflexivity.
Defined.

End QuantizerClaims.

(** ** Hexadecimal notation: parsing and formatting agree *)

Module HexFacts.

Import Keys ColorSpec.

Lemma below_forallb (P : Z -> bool) (n : nat) :
  forallb P (below n) = true -> forall z, 0 <= z < Z.of_nat n -> P z = true.
Proof.
  intros H z Hz. rewrite forallb_forall in H. apply H.
  unfold below. apply in_map_iff. exists (Z.to_nat z). split; [lia|].
  apply in_seq. lia.
Qed.

(** A hexadecimal digit of either case, once lower-cased, is read by
    [hex_digit], and its value prints back as the lower-cased digit. *)
Lemma hex_digit_lower (a : ascii) :
  is_hex_digit a = true ->
  exists d, D3.hex_digit (D3.lower_char a) = Some d
            /\ 0 <= d < 16 /\ digit_char d = D3.lower_char a.
Proof.
  destruct a as [[] [] [] [] [] [] [] []]; try discriminate; intros _;
    match goal with
    | |- exists d, D3.hex_digit ?c = _ /\ _ =>
        let v := eval vm_compute in (D3.hex_digit c) in
        match v with
        | Some ?d => exists d; vm_compute; repeat split; congruence
        end
    end.
Qed.

Lemma hex_digit_not_space (a : ascii) :
  is_hex_digit a = true -> D3.is_space a = false.
Proof. destruct a as [[] [] [] [] [] [] [] []]; try discriminate; reflexivity. Qed.

Lemma hex_digit_not_comma (a : ascii) :
  is_hex_digit a = true -> Ascii.eqb a "," = false.
Proof. destruct a as [[] [] [] [] [] [] [] []]; try discriminate; reflexivity. Qed.

Lemma hex_digits_no_comma (s : string) :
  forallb is_hex_digit (list_ascii_of_string s) = true -> has_char "," s = false.
Proof.
  induction s as [|a s IH]; simpl; [reflexivity|].
  intros H. apply andb_true_iff in H as [Ha Hs].
  now rewrite (hex_digit_not_comma _ Ha), (IH Hs).
Qed.

Lemma hex_digits_no_space (s : string) :
  forallb is_hex_digit (list_ascii_of_string s) = true -> no_space s = true.
Proof.
  induction s as [|a s IH]; simpl; [reflexivity|].
  intros H. apply andb_true_iff in H as [Ha Hs].
  now rewrite (hex_digit_not_space _ Ha), (IH Hs).
Qed.

Lemma trim_right_no_space (s : string) :
  no_space s = true -> D3.trim_right s = s.
Proof.
  induction s as [|a s IH]; simpl; [reflexivity|].
  intros H. apply andb_true_iff in H as [Ha Hs].
  rewrite (IH Hs). destruct s; [|reflexivity].
  apply negb_true_iff in Ha. now rewrite Ha.
Qed.

Lemma trim_hash (s : string) :
  no_space s = true -> D3.trim (String "#" s) = String "#" s.
Proof.
  intros H. unfold D3.trim. cbn [D3.trim_left].
  change (D3.is_space "#") with false. cbv iota.
  apply trim_right_no_space. simpl. now rewrite H.
Qed.

(** The three bytes packed by [parseInt] are recovered by [rgbn]. *)
Lemma unpack_bytes (A B C : Z) :
  0 <= A < 256 -> 0 <= B < 256 -> 0 <= C < 256 ->
  Z.land (Z.shiftr (A * 65536 + B * 256 + C) 16) 255 = A
  /\ Z.land (Z.shiftr (A * 65536 + B * 256 + C) 8) 255 = B
  /\ Z.land (A * 65536 + B * 256 + C) 255 = C.
Proof.
  intros HA HB HC.
  change 255 with (Z.ones 8).
  rewrite !Z.land_ones, !Z.shiftr_div_pow2 by lia.
  change (2 ^ 16) with 65536. change (2 ^ 8) with 256.
  repeat split; Z.div_mod_to_equations; lia.
Qed.

(** [hex] prints a byte as its two lowercase digits. *)
Lemma hex_byte (d1 d2 : Z) :
  0 <= d1 < 16 -> 0 <= d2 < 16 ->
  D3.hex (JSNumber.of_Z (d1 * 16 + d2))
  = String (digit_char d1) (String (digit_char d2) EmptyString).
Proof.
  intros H1 H2.
  pose (P := fun d1 d2 =>
    String.eqb (D3.hex (JSNumber.of_Z (d1 * 16 + d2)))
               (String (digit_char d1) (String (digit_char d2) EmptyString))).
  assert (HP : forallb (fun x => forallb (P x) (below 16)) (below 16) = true)
    by (vm_compute; reflexivity).
  apply String.eqb_eq.
  apply (below_forallb (P d1) 16); [|assumption].
  now apply (below_forallb (fun x => forallb (P x) (below 16)) 16).
Qed.

End HexFacts.

(** ** [normalizeHex] on six-digit hexadecimal notation *)

Module NormalizeFacts.

Import Keys ColorSpec HexFacts.

Lemma toLowerCase_idem (s : string) :
  D3.toLowerCase (D3.toLowerCase s) = D3.toLowerCase s.
Proof.
  induction s as [|a s IH]; simpl; [reflexivity|].
  rewrite IH. f_equal.
  destruct a as [[] [] [] [] [] [] [] []]; reflexivity.
Qed.

Lemma toLowerCase_hex_digits (s : string) :
  forallb is_hex_digit (list_ascii_of_string s) = true ->
  forallb is_hex_digit (list_ascii_of_string (D3.toLowerCase s)) = true.
Proof.
  induction s as [|a s IH]; simpl; [reflexivity|].
  intros H. apply andb_true_iff in H as [Ha Hs].
  rewrite (IH Hs), andb_true_r.
  destruct a as [[] [] [] [] [] [] [] []]; try discriminate; reflexivity.
Qed.

Lemma toLowerCase_length (s : string) :
  String.length (D3.toLowerCase s) = String.length s.
Proof. induction s as [|a s IH]; simpl; congruence. Qed.

(** Parsing a colour in six-digit notation and formatting it back gives
    the same digits in lowercase. *)
Lemma formatHex_color_hex6
    (other : string -> option D3.Color)
    (hsl_rgb : float -> float -> float -> float -> D3.Rgb) (digits : string) :
  String.length digits = 6%nat ->
  forallb is_hex_digit (list_ascii_of_string digits) = true ->
  exists o, D3.color other (String "#" digits) = Some o
            /\ D3.formatHex hsl_rgb o = String "#" (D3.toLowerCase digits).
Proof.
  intros Hlen Hhex.
  pose proof (hex_digits_no_space _ Hhex) as Hsp.
  destruct digits as [|a1 [|a2 [|a3 [|a4 [|a5 [|a6 [|]]]]]]]; try discriminate.
  cbn [list_ascii_of_string forallb] in Hhex.
  repeat (apply andb_true_iff in Hhex as [?H Hhex]).
  destruct (hex_digit_lower a1) as (d1 & E1 & R1 & C1); [assumption|].
  destruct (hex_digit_lower a2) as (d2 & E2 & R2 & C2); [assumption|].
  destruct (hex_digit_lower a3) as (d3 & E3 & R3 & C3); [assumption|].
  destruct (hex_digit_lower a4) as (d4 & E4 & R4 & C4); [assumption|].
  destruct (hex_digit_lower a5) as (d5 & E5 & R5 & C5); [assumption|].
  destruct (hex_digit_lower a6) as (d6 & E6 & R6 & C6); [assumption|].
  unfold D3.color. rewrite (trim_hash _ Hsp).
  cbn [D3.toLowerCase]. change (D3.lower_char "#") with "#"%char.
  unfold D3.reHex. cbn [String.length D3.all_hex].
  rewrite E1, E2, E3, E4, E5, E6. cbn [Nat.leb Nat.eqb andb].
  eexists. split; [reflexivity|].
  unfold D3.parseInt16. cbn [D3.parseInt16_from].
  rewrite E1. cbn [D3.parseInt16_from].
  rewrite E2. cbn [D3.parseInt16_from].
  rewrite E3. cbn [D3.parseInt16_from].
  rewrite E4. cbn [D3.parseInt16_from].
  rewrite E5. cbn [D3.parseInt16_from].
  rewrite E6.
  replace ((((((0 * 16 + d1) * 16 + d2) * 16 + d3) * 16 + d4) * 16 + d5) * 16 + d6)
    with ((d1 * 16 + d2) * 65536 + (d3 * 16 + d4) * 256 + (d5 * 16 + d6)) by ring.
  destruct (unpack_bytes (d1 * 16 + d2) (d3 * 16 + d4) (d5 * 16 + d6))
    as (U1 & U2 & U3); try lia.
  unfold D3.formatHex, D3.rgbn, D3.to_rgb, D3.rgb_formatHex.
  cbn [D3.r D3.g D3.b]. rewrite U1, U2, U3.
  rewrite !hex_byte by assumption.
  rewrite C1, C2, C3, C4, C5, C6. reflexivity.
Qed.

Lemma normalizeHex_hex6
    (other : string -> option D3.Color)
    (hsl_rgb : float -> float -> float -> float -> D3.Rgb) (digits : string) :
  String.length digits = 6%nat ->
  forallb is_hex_digit (list_ascii_of_string digits) = true ->
  ColorUtils.normalizeHex other hsl_rgb (String "#" digits)
  = String "#" (D3.toLowerCase digits).
Proof.
  intros Hlen Hhex. unfold ColorUtils.normalizeHex.
  destruct (formatHex_color_hex6 other hsl_rgb digits Hlen Hhex) as (o & -> & E).
  exact E.
Qed.

(** The parser does not distinguish the case of the digits. *)
Lemma color_lowercase (other : string -> option D3.Color) (digits : string) :
  forallb is_hex_digit (list_ascii_of_string digits) = true ->
  D3.color other (String "#" (D3.toLowerCase digits))
  = D3.color other (String "#" digits).
Proof.
  intros Hhex. unfold D3.color.
  rewrite !trim_hash
    by (apply hex_digits_no_space; auto using toLowerCase_hex_digits).
  cbn [D3.toLowerCase]. now rewrite toLowerCase_idem.
Qed.

End NormalizeFacts.

(** ** The shareable link *)

Module AppFacts.

Import Keys ColorSpec HexFacts NormalizeFacts.

Lemma split_join (sep : ascii) (l : list string) :
  l <> [] -> Forall (fun s => has_char sep s = false) l ->
  JS.split sep (JS.join (String sep EmptyString) l) = l.
Proof.
  induction l as [|w ws IH]; [congruence|].
  intros _ H. inversion_clear H as [|? ? Hw Hws].
  destruct ws as [|w' ws]; cbn [JS.join].
  - now apply split_no_sep.
  - cbn [append]. rewrite split_append by assumption.
    f_equal. apply IH; [discriminate | assumption].
Qed.

(** A colour in [#rrggbb] form is a hash sign followed by its digits. *)
Lemma is_rrggbb_inv (c : string) :
  is_rrggbb c = true ->
  exists digits, c = String "#" digits /\ String.length digits = 6%nat
    /\ forallb is_hex_digit (list_ascii_of_string digits) = true.
Proof.
  destruct c as [|a digits]; [discriminate|].
  unfold is_rrggbb.
  destruct a as [[] [] [] [] [] [] [] []]; try discriminate.
  intros H. apply andb_true_iff in H as [Hl Hd].
  apply Nat.eqb_eq in Hl. now exists digits.
Qed.

Lemma hex_digit_not_hash (a : ascii) :
  is_hex_digit a = true -> Ascii.eqb a "#" = false.
Proof. destruct a as [[] [] [] [] [] [] [] []]; try discriminate; reflexivity. Qed.

Lemma hex_digits_no_hash (s : string) :
  forallb is_hex_digit (list_ascii_of_string s) = true -> has_char "#" s = false.
Proof.
  induction s as [|a s IH]; simpl; [reflexivity|].
  intros H. apply andb_true_iff in H as [Ha Hs].
  now rewrite (hex_digit_not_hash _ Ha), (IH Hs).
Qed.

(** The segments written by [updateUrl] are the bare digits of the
    colours, in palette order. *)
Lemma updateUrl_segments (colors : list string) :
  colors <> [] -> Forall (fun c => is_rrggbb c = true) colors ->
  JS.split "," (App.updateUrl colors) = map App.replace_hash colors
  /\ Forall (fun seg => has_char "#" seg = false) (map App.replace_hash colors)
  /\ map (fun seg => String "#" seg) (map App.replace_hash colors) = colors.
Proof.
  intros Hne Hc.
  assert (H : Forall (fun c => has_char "," (App.replace_hash c) = false
                               /\ has_char "#" (App.replace_hash c) = false
                               /\ String "#" (App.replace_hash c) = c) colors).
  { eapply Forall_impl; [|exact Hc].
    intros c Hv. apply is_rrggbb_inv in Hv as (digits & -> & _ & Hd).
    cbn. auto using hex_digits_no_comma, hex_digits_no_hash. }
  split; [|split].
  - unfold App.updateUrl. apply split_join.
    + destruct colors; [congruence | discriminate].
    + apply Forall_map. eapply Forall_impl; [|exact H]. now intros c (? & _).
  - apply Forall_map. eapply Forall_impl; [|exact H]. now intros c (_ & ? & _).
  - rewrite map_map. rewrite <- (map_id colors) at 2.
    apply map_ext_Forall. eapply Forall_impl; [|exact H]. now intros c (_ & _ & ?).
Qed.

Lemma restore_updateUrl
    (other : string -> option D3.Color)
    (hsl_rgb : float -> float -> float -> float -> D3.Rgb)
    (colors : list string) (st : App.State) :
  List.length colors = 5%nat ->
  Forall (fun c => is_rrggbb c = true) colors ->
  App.palette (App.restore other hsl_rgb (Some (App.updateUrl colors)) st)
  = map D3.toLowerCase colors.
Proof.
  intros Hlen Hc.
  assert (Hne : colors <> []) by (destruct colors; [discriminate | congruence]).
  destruct (updateUrl_segments colors Hne Hc) as (Hs & _ & Hm).
  assert (Hn : map (fun c => ColorUtils.normalizeHex other hsl_rgb ("#" ++ c))
                   (JS.split "," (App.updateUrl colors))
               = map D3.toLowerCase colors).
  { rewrite Hs, map_map. apply map_ext_Forall.
    eapply Forall_impl; [|exact Hc].
    intros c Hv. apply is_rrggbb_inv in Hv as (digits & -> & Hl & Hd).
    cbn. now apply normalizeHex_hex6. }
  unfold App.restore.
  destruct (App.updateUrl colors) as [|a u] eqn:Eu.
  - apply (f_equal (@List.length string)) in Hs.
    rewrite length_map, Hlen in Hs. discriminate.
  - rewrite Hn, length_map, Hlen. reflexivity.
Qed.

End AppFacts.

(** ** Comparisons of numbers with the bounds of the clamp *)

Module NumberFacts.

Import JSNumber NumberSpec.

Local Open Scope float_scope.

Lemma Prim2SF_not_nan (x : float) : is_nan x = false -> Prim2SF x <> S754_nan.
Proof.
  intros H. unfold Prim2SF. rewrite H.
  destruct (is_zero x); [discriminate|].
  destruct (is_infinity x); [discriminate|].
  destruct (Z.frexp x) as [m e].
  destruct (shr_fexp _ _ _ _ _) as [s e'].
  destruct (shr_m s); discriminate.
Qed.

Lemma Prim2SF_is_nan (x : float) : is_nan x = true -> Prim2SF x = S754_nan.
Proof. intros H. unfold Prim2SF. now rewrite H. Qed.

Lemma Prim2SF_0 : Prim2SF 0 = S754_zero false.
Proof. vm_compute. reflexivity. Qed.

Lemma Prim2SF_100 : Prim2SF 100 = S754_finite false 7036874417766400 (-46).
Proof. vm_compute. reflexivity. Qed.

Lemma is_nan_eqb (x : float) : is_nan x = false -> (x =? x) = true.
Proof. unfold is_nan. now intros ->%negb_false_iff. Qed.

(** Case analysis on the class of [x] in goals about comparisons of [x]
    with the constants 0 and 100. *)
Ltac sf_cases x :=
  rewrite ?ltb_spec, ?leb_spec, ?eqb_spec, ?Prim2SF_0, ?Prim2SF_100 in *;
  let s := fresh "s" in
  destruct (Prim2SF x) as [s|s| |s ? ?]; try congruence;
  try destruct s; cbn in *; try discriminate; try reflexivity.

Lemma Math_min_100 (x : float) :
  is_nan x = false -> Math_min 100 x = if 100 <? x then 100 else x.
Proof.
  intros Hn. unfold Math_min. rewrite Hn.
  change (is_nan 100 || false) with false. change (get_sign 100) with false.
  cbv iota. destruct (100 <? x); [reflexivity|]. now destruct (x <? 100).
Qed.

Lemma Math_max_0 (y : float) :
  is_nan y = false -> Math_max 0 y = if 0 <? y then y else 0.
Proof.
  intros Hn. unfold Math_max. rewrite Hn.
  change (is_nan 0 || false) with false. change (get_sign 0) with false.
  cbv iota. destruct (0 <? y); [reflexivity|]. now destruct (y <? 0).
Qed.

Lemma Math_max_0_nan (y : float) : is_nan y = true -> Math_max 0 y = nan.
Proof. intros Hn. unfold Math_max. rewrite Hn. now rewrite orb_true_r. Qed.

Lemma Math_min_100_nan (y : float) : is_nan y = true -> Math_min 100 y = nan.
Proof. intros Hn. unfold Math_min. rewrite Hn. now rewrite orb_true_r. Qed.

(** [Math.max(0, Math.min(100, x))] is the clamp of [x] to [[0, 100]]. *)
Lemma clamp_agrees (x : float) :
  same_number (Math_max 0 (Math_min 100 x)) (clamp x 0 100) = true.
Proof.
  unfold same_number, clamp.
  destruct (is_nan x) eqn:Hn.
  - rewrite (Math_min_100_nan x Hn), (Math_max_0_nan nan eq_refl).
    pose proof (Prim2SF_is_nan x Hn) as Hsf.
    assert (E1 : (x <? 0) = false) by (rewrite ltb_spec, Hsf; reflexivity).
    assert (E2 : (100 <? x) = false)
      by (rewrite ltb_spec, Hsf, Prim2SF_100; reflexivity).
    rewrite E1, E2, Hn. reflexivity.
  - pose proof (Prim2SF_not_nan x Hn) as Hsf.
    pose proof (is_nan_eqb x Hn) as Hxx.
    rewrite (Math_min_100 x Hn).
    destruct (100 <? x) eqn:E100.
    + change (Math_max 0 100) with 100.
      assert (E0 : (x <? 0) = false) by (clear Hxx; sf_cases x).
      rewrite E0. reflexivity.
    + rewrite (Math_max_0 x Hn).
      destruct (0 <? x) eqn:E0x.
      * assert (E0 : (x <? 0) = false) by (clear Hxx E100; sf_cases x).
        rewrite E0, Hxx. now rewrite orb_true_r.
      * destruct (x <? 0) eqn:E0; [reflexivity|].
        apply orb_true_iff. right. clear Hxx E100. sf_cases x.
Qed.

(** [Math.max(0, y)] is never negative. *)
Lemma Math_max_0_nonneg (y : float) :
  is_nan (Math_max 0 y) || (0 <=? Math_max 0 y) = true.
Proof.
  destruct (is_nan y) eqn:Hn.
  - now rewrite (Math_max_0_nan y Hn).
  - rewrite (Math_max_0 y Hn). apply orb_true_iff. right.
    destruct (0 <? y) eqn:E; [|reflexivity].
    pose proof (Prim2SF_not_nan y Hn). sf_cases y.
Qed.

End NumberFacts.

(** ** The colour utilities: statements *)

Module ColorClaims.

Import JSNumber NumberSpec NumberFacts ColorSpec NormalizeFacts AppFacts.

Local Open Scope float_scope.

Section Claims.

Variable other : string -> option D3.Color.
Variable hsl_rgb : float -> float -> float -> float -> D3.Rgb.
Variable formatRgb : D3.Color -> string.
Variable formatHsl : D3.Color -> string.
Variable rgb2lch : D3.Rgb -> D3.Hcl.
Variable lch2rgb : D3.Hcl -> D3.Rgb.
Variable Math_pow : float -> float -> float.
Variable Number_toString : float -> string.


(** C6.  When the parser rejects the input, [normalizeHex] returns
    "#000000" and [getColorFormats] returns the black record; both are
    total functions, so no failure reaches the caller. *)
Theorem parse_failure_falls_back_to_black (input : string) :
  D3.color other input = None ->
  ColorUtils.normalizeHex other hsl_rgb input = "#000000"%string
  /\ ColorUtils.getColorFormats other hsl_rgb formatRgb formatHsl rgb2lch
       Number_toString input
     = ColorUtils.mkColorFormats "#000000" "rgb(0,0,0)" "hsl(0,0%,0%)" "lch(0 0 0)".
Proof.
  intros H. unfold ColorUtils.normalizeHex, ColorUtils.getColorFormats.
  now rewrite H.
Qed.

End Claims.


Lemma parse_failure_falls_back_to_black_witness :
  ColorUtils.normalizeHex no_other no_hsl "#12345" = "#000000"%string
  /\ ColorUtils.getColorFormats no_other no_hsl
       (fun _ => EmptyString) (fun _ => EmptyString)
       (fun _ => D3.mkHcl nan nan nan nan) toString_nonfinite "#12345"
     = ColorUtils.mkColorFormats "#000000" "rgb(0,0,0)" "hsl(0,0%,0%)" "lch(0 0 0)".
Proof.
  apply (parse_failure_falls_back_to_black no_other no_hsl).
  reflexivity.
Defined.

End ColorClaims.

(** ** The shareable link: statement *)

Module AppClaims.

Import Keys ColorSpec NormalizeFacts AppFacts.

(** C5.  A palette of five colours in [#rrggbb] form is written to the
    link as the comma-joined sequence of its bare digit segments, in
    palette order and without the hash sign, and restoring from that
    value yields the five colours again: each restored string is the
    original one with its digits in lowercase, it denotes the same colour
    for the parser, and it is identical to the original when the original
    digits are lowercase, as are the digits of every colour produced by
    [formatHex]. *)
Theorem share_link_round_trip
    (other : string -> option D3.Color)
    (hsl_rgb : float -> float -> float -> float -> D3.Rgb)
    (colors : list string) (st : App.State) :
  List.length colors = 5%nat ->
  Forall (fun c => is_rrggbb c = true) colors ->
  let segments := map App.replace_hash colors in
  let restored :=
    App.palette (App.restore other hsl_rgb (Some (App.updateUrl colors)) st) in
  App.updateUrl colors = JS.join "," segments
  /\ JS.split "," (App.updateUrl colors) = segments
  /\ Forall (fun seg => has_char "#" seg = false) segments
  /\ map (fun seg => String "#" seg) segments = colors
  /\ restored = map D3.toLowerCase colors
  /\ map (D3.color other) restored = map (D3.color other) colors
  /\ (Forall (fun c => D3.toLowerCase c = c) colors -> restored = colors).
Proof.
  intros Hlen Hc segments restored.
  assert (Hne : colors <> []) by (destruct colors; [discriminate | congruence]).
  destruct (updateUrl_segments colors Hne Hc) as (Hs & Hh & Hm).
  assert (Hr : restored = map D3.toLowerCase colors)
    by now apply restore_updateUrl.
  split; [reflexivity|].
  split; [exact Hs|].
  split; [exact Hh|].
  split; [exact Hm|].
  split; [exact Hr|].
  split.
  - rewrite Hr, map_map. apply map_ext_Forall.
    eapply Forall_impl; [|exact Hc].
    intros c Hv. apply is_rrggbb_inv in Hv as (digits & -> & _ & Hd).
    cbn [D3.toLowerCase]. change (D3.lower_char "#") with "#"%char.
    now apply color_lowercase.
  - intros Hl. rewrite Hr. rewrite <- (map_id colors) at 2.
    now apply map_ext_Forall.
Qed.

Lemma share_link_round_trip_witness :
  App.palette
    (App.restore no_other no_hsl
       (Some (App.updateUrl ["#141414"; "#f27d26"; "#e4e3e0"; "#8e9299"; "#ffffff"]))
       App.initial)
  = ["#141414"; "#f27d26"; "#e4e3e0"; "#8e9299"; "#ffffff"].
Proof.
  apply (share_link_round_trip no_other no_hsl
           ["#141414"; "#f27d26"; "#e4e3e0"; "#8e9299"; "#ffffff"] App.initial).
  - reflexivity.
  - repeat constructor.
  - repeat constructor.
Defined.

(** The initial palette of the component has uppercase digits; it comes
    back from the link with the same colours in lowercase. *)
Example share_link_initial_palette :
  App.updateUrl (App.palette App.initial) = "141414,F27D26,E4E3E0,8E9299,FFFFFF"
  /\ App.palette
       (App.restore no_other no_hsl
          (Some (App.updateUrl (App.palette App.initial))) App.initial)
     = ["#141414"; "#f27d26"; "#e4e3e0"; "#8e9299"; "#ffffff"].
Proof. split; vm_compute; reflexivity. Qed.

End AppClaims.

(** ** The quantizer: further properties *)

Module QuantizerExtra.

Import Histogram Keys QuantizerFacts QuantizerColors QuantizerMore.

Lemma total_bump (k : string) (bs : list (string * Z)) :
  total (bump k bs) = total bs + 1.
Proof.
  induction bs as [|[k' n] bs IH]; simpl; [reflexivity|].
  destruct (String.eqb k' k); simpl; [lia | rewrite IH; lia].
Qed.

Lemma total_perm (l l' : list (string * Z)) :
  Permutation l l' -> total l = total l'.
Proof. induction 1; simpl; lia. Qed.

(** X1.  The occurrence counts of the ranked buckets add up to the number
    of pixels: every pixel is counted in exactly one bucket. *)
Theorem ranked_counts_total (pixels : list pixel) :
  total (ranked pixels) = Z.of_nat (List.length pixels).
Proof.
  rewrite (total_perm _ _ (ranked_perm pixels)), entries_of_keys.
  rewrite <- (length_map bucket_key).
  induction (map bucket_key pixels) as [|k keys IH] using rev_ind; [reflexivity|].
  rewrite of_keys_snoc, total_bump, IH, length_app. simpl. lia.
Qed.

(** X2.  With a count of at least one and at least one pixel, the first
    colour returned is that of a most frequent bucket: no pixel falls in a
    bucket with more occurrences. *)
Theorem first_color_most_frequent (pixels : list pixel) (count : Z) :
  1 <= count -> pixels <> [] ->
  exists k n rest,
    getDominantColors pixels count = entry_color (k, n) :: rest
    /\ In k (map bucket_key pixels)
    /\ n = occurrences k pixels
    /\ forall p, In p pixels -> occurrences (bucket_key p) pixels <= n.
Proof.
  intros Hc Hp.
  pose proof (ranked_sorted pixels) as Hs.
  pose proof (ranked_In pixels) as Hin.
  pose proof (ranked_length pixels) as Hlen.
  destruct (ranked pixels) as [|[k n] t] eqn:E.
  - exfalso. destruct pixels as [|p ps]; [congruence|].
    assert (In (bucket_key p, occurrences (bucket_key p) (p :: ps)) [])
      as [] by (apply Hin; split; [now left | reflexivity]).
  - destruct (Z.to_nat count) as [|m] eqn:Em; [lia|].
    exists k, n, (map entry_color (firstn m t)).
    split.
    + unfold getDominantColors, top_buckets.
      rewrite slice0_nonneg, E, Em by lia. reflexivity.
    + destruct (proj1 (Hin k n) (or_introl eq_refl)) as [Hk Hn].
      split; [assumption|]. split; [assumption|].
      intros p Hpin.
      assert (Hb : In (bucket_key p, occurrences (bucket_key p) pixels)
                      ((k, n) :: t))
        by (apply Hin; split; [now apply in_map | reflexivity]).
      destruct Hb as [Hb|Hb]; [injection Hb as _ <-; lia|].
      inversion_clear Hs as [|? ? _ Hall].
      rewrite Forall_forall in Hall. apply (Hall _ Hb).
Qed.

Lemma first_color_most_frequent_witness :
  exists k n rest,
    getDominantColors [mkPixel 20 20 20; mkPixel 200 0 0; mkPixel 21 22 23] 1
    = entry_color (k, n) :: rest
    /\ In k (map bucket_key [mkPixel 20 20 20; mkPixel 200 0 0; mkPixel 21 22 23])
    /\ n = occurrences k [mkPixel 20 20 20; mkPixel 200 0 0; mkPixel 21 22 23]
    /\ forall p, In p [mkPixel 20 20 20; mkPixel 200 0 0; mkPixel 21 22 23] ->
         occurrences (bucket_key p)
           [mkPixel 20 20 20; mkPixel 200 0 0; mkPixel 21 22 23] <= n.
Proof.
  apply (first_color_most_frequent
           [mkPixel 20 20 20; mkPixel 200 0 0; mkPixel 21 22 23] 1);
    [lia | discriminate].
Defined.

(** X3.  Asking for more colours only appends: for counts
    [0 <= c1 <= c2] the result for [c1] is the prefix of length [c1] of
    the result for [c2]. *)
Theorem smaller_count_is_prefix (pixels : list pixel) (c1 c2 : Z) :
  0 <= c1 <= c2 ->
  getDominantColors pixels c1
  = firstn (Z.to_nat c1) (getDominantColors pixels c2).
Proof.
  intros H. unfold getDominantColors, top_buckets.
  rewrite !slice0_nonneg by lia.
  rewrite firstn_map, firstn_firstn. f_equal. f_equal. lia.
Qed.

Lemma smaller_count_is_prefix_witness :
  getDominantColors [mkPixel 20 20 20; mkPixel 200 0 0] 1
  = firstn (Z.to_nat 1) (getDominantColors [mkPixel 20 20 20; mkPixel 200 0 0] 2).
Proof.
  apply (smaller_count_is_prefix [mkPixel 20 20 20; mkPixel 200 0 0] 1 2). lia.
Defined.

(** X4.  A negative count does not give an empty palette: [slice(0, count)]
    drops the last [-count] ranked buckets, so the result has
    [max 0 (distinct_buckets + count)] colours. *)
Theorem negative_count_drops_last (pixels : list pixel) (count : Z) :
  count < 0 ->
  getDominantColors pixels count
  = map entry_color
      (firstn (distinct_buckets pixels - Z.to_nat (- count)) (ranked pixels))
  /\ Z.of_nat (List.length (getDominantColors pixels count))
     = Z.max 0 (Z.of_nat (distinct_buckets pixels) + count).
Proof.
  intros H.
  assert (E : getDominantColors pixels count
              = map entry_color
                  (firstn (distinct_buckets pixels - Z.to_nat (- count))
                          (ranked pixels))).
  { unfold getDominantColors, top_buckets, JS.slice0.
    destruct (count <? 0) eqn:Ec; [|apply Z.ltb_ge in Ec; lia].
    rewrite ranked_length. do 2 f_equal. lia. }
  split; [exact E|].
  rewrite E, length_map, length_firstn, ranked_length. lia.
Qed.

Lemma negative_count_drops_last_witness :
  Z.of_nat (List.length
    (getDominantColors [mkPixel 20 20 20; mkPixel 200 0 0; mkPixel 0 200 0] (-1)))
  = Z.max 0 (Z.of_nat
      (distinct_buckets [mkPixel 20 20 20; mkPixel 200 0 0; mkPixel 0 200 0]) + -1).
Proof.
  apply (negative_count_drops_last
           [mkPixel 20 20 20; mkPixel 200 0 0; mkPixel 0 200 0] (-1)). lia.
Defined.

(** X5.  Each bucket channel is the multiple of 32 nearest to the pixel
    channel, a channel half-way between two multiples going up. *)
Theorem round_to_factor_nearest (c : Z) :
  exists k, round_to_factor c = 32 * k
            /\ round_to_factor c - 16 <= c < round_to_factor c + 16.
Proof.
  unfold round_to_factor, factor.
  exists ((2 * c + 32) / (2 * 32)). split; [lia|].
  pose proof (Z.div_mod (2 * c + 32) (2 * 32) ltac:(lia)) as E.
  pose proof (Z.mod_pos_bound (2 * c + 32) (2 * 32) ltac:(lia)) as B.
  lia.
Qed.

End QuantizerExtra.

(** ** The quantizer: which colours are well formed, and distinct *)

Module QuantizerExtra2.

Import Histogram Keys QuantizerFacts QuantizerColors QuantizerMore HexFacts.
Import ColorSpec.

Lemma round_to_factor_level (c : Z) :
  0 <= c <= 255 ->
  exists k, 0 <= k < 9 /\ round_to_factor c = 32 * k /\ (k < 8 <-> c < 240).
Proof.
  intros H. unfold round_to_factor, factor.
  exists ((2 * c + 32) / (2 * 32)).
  pose proof (Z.div_mod (2 * c + 32) (2 * 32) ltac:(lia)) as E.
  pose proof (Z.mod_pos_bound (2 * c + 32) (2 * 32) ltac:(lia)) as B.
  repeat split; lia.
Qed.

Lemma level_color_valid (k1 k2 k3 : Z) :
  0 <= k1 < 9 -> 0 <= k2 < 9 -> 0 <= k3 < 9 ->
  is_rrggbb (rgbToHex (Some (32 * k1)) (Some (32 * k2)) (Some (32 * k3)))
  = (k1 <? 8) && (k2 <? 8) && (k3 <? 8).
Proof.
  intros H1 H2 H3.
  pose (P := fun k1 k2 k3 =>
    Bool.eqb
      (is_rrggbb (rgbToHex (Some (32 * k1)) (Some (32 * k2)) (Some (32 * k3))))
      ((k1 <? 8) && (k2 <? 8) && (k3 <? 8))).
  assert (HP : forallb (fun a => forallb (fun b => forallb (P a b) (below 9))
                                         (below 9)) (below 9) = true)
    by (vm_compute; reflexivity).
  apply Bool.eqb_prop.
  apply (below_forallb (P k1 k2) 9); [|assumption].
  apply (below_forallb (fun b => forallb (P k1 b) (below 9)) 9); [|assumption].
  now apply (below_forallb
               (fun a => forallb (fun b => forallb (P a b) (below 9)) (below 9)) 9).
Qed.

(** X6.  For a pixel with 8-bit channels, the colour emitted for its bucket
    is a well-formed [#rrggbb] string exactly when none of its channels
    reaches 240; a channel in [[240, 255]] is rounded to 256 and encoded
    with three digits. *)
Theorem bucket_color_valid_iff (p : pixel) (n : Z) :
  is_8bit p ->
  entry_color (bucket_key p, n) = bucket_color p
  /\ (is_rrggbb (bucket_color p) = true <-> channels_below 240 p).
Proof.
  intros (Hr & Hg & Hb).
  split; [apply entry_color_bucket|].
  unfold bucket_color, channels_below.
  destruct (round_to_factor_level _ Hr) as (k1 & B1 & -> & I1).
  destruct (round_to_factor_level _ Hg) as (k2 & B2 & -> & I2).
  destruct (round_to_factor_level _ Hb) as (k3 & B3 & -> & I3).
  rewrite level_color_valid by assumption.
  rewrite !andb_true_iff, !Z.ltb_lt. lia.
Qed.

Lemma bucket_color_valid_iff_witness :
  entry_color (bucket_key (mkPixel 239 0 128), 1) = bucket_color (mkPixel 239 0 128)
  /\ (is_rrggbb (bucket_color (mkPixel 239 0 128)) = true
      <-> channels_below 240 (mkPixel 239 0 128)).
Proof.
  apply (bucket_color_valid_iff (mkPixel 239 0 128) 1).
  unfold is_8bit. simpl. lia.
Defined.

(** X7.  When every pixel has its three channels in [[0, 240)], every
    colour returned by [getDominantColors] is a well-formed [#rrggbb]
    string, whatever the count. *)
Theorem colors_well_formed_below_240 (pixels : list pixel) (count : Z) :
  Forall (channels_below 240) pixels ->
  Forall (fun c => is_rrggbb c = true) (getDominantColors pixels count).
Proof. apply colors_valid_below_240. Qed.

Lemma colors_well_formed_below_240_witness :
  Forall (fun c => is_rrggbb c = true)
         (getDominantColors [mkPixel 20 20 20; mkPixel 239 0 128] 5).
Proof.
  apply (colors_well_formed_below_240 [mkPixel 20 20 20; mkPixel 239 0 128] 5).
  repeat (constructor; [unfold channels_below; simpl; lia|]). constructor.
Defined.

Lemma nodupb_NoDup (l : list string) : nodupb l = true -> NoDup l.
Proof.
  induction l as [|x t IH]; simpl; [constructor|].
  intros H. apply andb_true_iff in H as [Hx Ht].
  constructor; [|now apply IH].
  intros Hin. apply negb_true_iff in Hx.
  assert (existsb (String.eqb x) t = true) as E
    by (apply existsb_exists; exists x; split; [assumption | apply String.eqb_refl]).
  congruence.
Qed.

Lemma NoDup_map_injective {A B : Type} (f : A -> B) (l : list A) (x y : A) :
  NoDup (map f l) -> In x l -> In y l -> f x = f y -> x = y.
Proof.
  induction l as [|a l IH]; simpl; [tauto|].
  intros Hnd Hx Hy E. inversion_clear Hnd as [|? ? Ha Hl].
  destruct Hx as [->|Hx], Hy as [->|Hy]; auto.
  - exfalso. apply Ha. rewrite E. now apply in_map.
  - exfalso. apply Ha. rewrite <- E. now apply in_map.
Qed.

Lemma level_colors_NoDup : NoDup (map level_color level_triples).
Proof. apply nodupb_NoDup. vm_compute. reflexivity. Qed.

Lemma In_levels (c : Z) : 0 <= c <= 255 -> In (round_to_factor c) levels.
Proof.
  intros H. destruct (round_to_factor_level c H) as (k & Hk & -> & _).
  unfold levels. apply in_map_iff. exists (Z.to_nat k). split; [lia|].
  apply in_seq. lia.
Qed.

(** Two 8-bit pixels whose buckets are given the same colour are in the
    same bucket. *)
Lemma bucket_color_injective (p q : pixel) :
  is_8bit p -> is_8bit q -> bucket_color p = bucket_color q ->
  bucket_key p = bucket_key q.
Proof.
  intros (Pr & Pg & Pb) (Qr & Qg & Qb) E.
  assert (T : (round_to_factor (r p), (round_to_factor (g p), round_to_factor (b p)))
              = (round_to_factor (r q), (round_to_factor (g q), round_to_factor (b q)))).
  { apply (NoDup_map_injective level_color level_triples).
    - apply level_colors_NoDup.
    - unfold level_triples. repeat (apply in_prod); now apply In_levels.
    - unfold level_triples. repeat (apply in_prod); now apply In_levels.
    - exact E. }
  injection T as E1 E2 E3. unfold bucket_key. now rewrite E1, E2, E3.
Qed.

Lemma NoDup_map_on {A B C : Type} (key : A -> B) (f : A -> C) (l : list A) :
  NoDup (map key l) ->
  (forall x y, In x l -> In y l -> f x = f y -> key x = key y) ->
  NoDup (map f l).
Proof.
  induction l as [|a l IH]; simpl; [constructor|].
  intros Hnd Hinj. inversion_clear Hnd as [|? ? Ha Hl].
  constructor.
  - intros Hin. apply in_map_iff in Hin as (y & Ey & Hy).
    apply Ha. rewrite <- (Hinj y a); auto. now apply in_map.
  - apply IH; auto.
Qed.

Lemma NoDup_firstn {A : Type} (n : nat) (l : list A) :
  NoDup l -> NoDup (firstn n l).
Proof.
  intros H. rewrite <- (firstn_skipn n l) in H.
  now apply NoDup_app_remove_r in H.
Qed.

(** X8.  On pixels with 8-bit channels the palette has no duplicates: the
    colours returned by [getDominantColors] are pairwise distinct. *)
Theorem colors_distinct (pixels : list pixel) (count : Z) :
  Forall is_8bit pixels -> NoDup (getDominantColors pixels count).
Proof.
  intros H8. unfold getDominantColors, top_buckets.
  destruct (slice0_prefix count (ranked pixels)) as [m ->].
  apply (NoDup_map_on fst).
  - rewrite <- firstn_map. apply NoDup_firstn, ranked_NoDup.
  - intros [k1 n1] [k2 n2] H1 H2 E. cbn [fst].
    apply In_firstn, ranked_In in H1 as [H1 _].
    apply In_firstn, ranked_In in H2 as [H2 _].
    apply in_map_iff in H1 as (p & <- & Hp).
    apply in_map_iff in H2 as (q & <- & Hq).
    rewrite !entry_color_bucket in E.
    rewrite Forall_forall in H8.
    apply bucket_color_injective; auto.
Qed.

Lemma colors_distinct_witness :
  NoDup (getDominantColors [mkPixel 250 10 10; mkPixel 20 20 20; mkPixel 255 0 0] 5).
Proof.
  apply (colors_distinct [mkPixel 250 10 10; mkPixel 20 20 20; mkPixel 255 0 0] 5).
  repeat (constructor; [unfold is_8bit; simpl; lia|]). constructor.
Defined.

Lemma sorted_counts (l : list (string * Z)) :
  StronglySorted (fun a b => snd b <= snd a) l ->
  StronglySorted (desc (fun z : Z => z)) (map snd l).
Proof.
  induction 1 as [|e l Hs IH Hall]; simpl; constructor; [assumption|].
  rewrite Forall_map. exact Hall.
Qed.

(** X9.  Which buckets are found, and with which counts, does not depend
    on the order of the pixels: reordering the pixels can only reorder
    buckets of equal count. *)
Theorem ranked_permutation (pixels pixels' : list pixel) :
  Permutation pixels pixels' ->
  Permutation (ranked pixels) (ranked pixels')
  /\ map snd (ranked pixels) = map snd (ranked pixels').
Proof.
  intros HP.
  assert (Hperm : Permutation (ranked pixels) (ranked pixels')).
  { apply NoDup_Permutation.
    - apply (NoDup_map_inv fst), ranked_NoDup.
    - apply (NoDup_map_inv fst), ranked_NoDup.
    - intros [k n]. rewrite !ranked_In. unfold occurrences.
      assert (HK : Permutation (map bucket_key pixels) (map bucket_key pixels'))
        by now apply Permutation_map.
      rewrite (proj1 (Permutation_count_occ string_dec _ _) HK k).
      split; intros [Hk Hn]; (split; [|exact Hn]).
      + now apply (Permutation_in _ HK).
      + now apply (Permutation_in _ (Permutation_sym HK)). }
  split; [exact Hperm|].
  apply (sorted_classes_unique (fun z : Z => z)).
  - apply sorted_counts, ranked_sorted.
  - apply sorted_counts, ranked_sorted.
  - intros m.
    assert (HC : forall l l' : list Z, Permutation l l' ->
              filter (fun a => a =? m) l = filter (fun a => a =? m) l').
    { induction 1 as [|x l l' _ IH|x y l|l l' l'' _ IH1 _ IH2]; simpl.
      - reflexivity.
      - now rewrite IH.
      - destruct (x =? m) eqn:Ex, (y =? m) eqn:Ey; try reflexivity.
        apply Z.eqb_eq in Ex, Ey. congruence.
      - congruence. }
    apply HC. now apply Permutation_map.
Qed.

Lemma ranked_permutation_witness :
  Permutation (ranked [mkPixel 20 20 20; mkPixel 200 0 0])
              (ranked [mkPixel 200 0 0; mkPixel 20 20 20])
  /\ map snd (ranked [mkPixel 20 20 20; mkPixel 200 0 0])
     = map snd (ranked [mkPixel 200 0 0; mkPixel 20 20 20]).
Proof.
  apply (ranked_permutation [mkPixel 20 20 20; mkPixel 200 0 0]
                            [mkPixel 200 0 0; mkPixel 20 20 20]).
  apply perm_swap.
Defined.

End QuantizerExtra2.

(** ** Integers as binary64 numbers *)

Module FloatRep.

Import JSNumber NumberMore.
Local Open Scope float_scope.

Lemma digits2_size (p : positive) : digits2_pos p = Pos.size p.
Proof. induction p; simpl; congruence. Qed.

Lemma digits2_iter_xO (p d : positive) :
  digits2_pos (Pos.iter xO p d) = (digits2_pos p + d)%positive.
Proof.
  induction d as [|d IH] using Pos.peano_ind.
  - simpl. lia.
  - rewrite Pos.iter_succ. simpl. rewrite IH. lia.
Qed.

(** A mantissa of 53 digits is not changed by rounding. *)
Lemma binary_round_aux_53 (s : bool) (m : positive) (e : Z) :
  digits2_pos m = 53%positive -> (-1074 <= e <= 971)%Z ->
  binary_round_aux prec emax s (Zpos m) e loc_Exact = S754_finite s m e.
Proof.
  intros Hd He.
  assert (F : (fexp prec emax (Zdigits2 (Zpos m) + e) - e = 0)%Z).
  { unfold fexp, Zdigits2, emin, prec, emax. rewrite Hd. lia. }
  unfold binary_round_aux, shr_fexp. rewrite F. cbn [shr shr_record_of_loc].
  cbn [shr_m loc_of_shr_record round_nearest_even]. rewrite F. cbn [shr shr_record_of_loc shr_m].
  destruct (Z.leb_spec e (emax - prec)); [reflexivity|].
  unfold emax, prec in *. lia.
Qed.

Lemma binary_round_53 (s : bool) (m : positive) (e : Z) :
  digits2_pos m = 53%positive -> (-1074 <= e <= 971)%Z ->
  binary_round prec emax s m e = S754_finite s m e.
Proof.
  intros Hd He. unfold binary_round, shl_align.
  assert (F : (fexp prec emax (Zpos (digits2_pos m) + e) - e = 0)%Z).
  { unfold fexp, emin, prec, emax. rewrite Hd. lia. }
  rewrite F. now apply binary_round_aux_53.
Qed.

Lemma normal_of_pos_spec (p : positive) :
  (Zpos (digits2_pos p) <= 53)%Z ->
  digits2_pos (fst (normal_of_pos p)) = 53%positive
  /\ snd (normal_of_pos p) = (Zpos (digits2_pos p) - 53)%Z.
Proof.
  intros H. unfold normal_of_pos.
  destruct (53 - Zpos (digits2_pos p))%Z as [|d|d] eqn:E; cbn [fst snd].
  - split; lia.
  - rewrite digits2_iter_xO. split; lia.
  - lia.
Qed.

Lemma binary_round_int (s : bool) (p : positive) :
  (Zpos (digits2_pos p) <= 53)%Z ->
  binary_round prec emax s p 0
  = S754_finite s (fst (normal_of_pos p)) (snd (normal_of_pos p)).
Proof.
  intros H. destruct (normal_of_pos_spec p H) as [Hd He].
  unfold binary_round, shl_align.
  assert (F : (fexp prec emax (Zpos (digits2_pos p) + 0) - 0
               = Zpos (digits2_pos p) - 53)%Z).
  { unfold fexp, emin, prec, emax. lia. }
  rewrite F. unfold normal_of_pos in *.
  destruct (53 - Zpos (digits2_pos p))%Z as [|d|d] eqn:E; cbn [fst snd] in *.
  - replace (Zpos (digits2_pos p) - 53)%Z with 0%Z by lia.
    apply binary_round_aux_53; [assumption | lia].
  - replace (Zpos (digits2_pos p) - 53)%Z with (Zneg d) by lia.
    replace (fexp prec emax (Zpos (digits2_pos p) + 0)) with (Zneg d)
      by (unfold fexp, emin, prec, emax; lia).
    apply binary_round_aux_53; [assumption | lia].
  - lia.
Qed.

Lemma Prim2SF_of_Z_pos (p : positive) :
  (Zpos (digits2_pos p) <= 53)%Z ->
  Prim2SF (of_Z (Zpos p))
  = S754_finite false (fst (normal_of_pos p)) (snd (normal_of_pos p)).
Proof.
  intros H. destruct (normal_of_pos_spec p H) as [Hd He].
  unfold of_Z, SF2Prim.
  rewrite Z_ldexp_spec, of_uint63_spec, Uint63.of_Z_spec.
  rewrite Z.mod_small.
  - cbn [binary_normalize]. rewrite (binary_round_int false p H).
    cbn [SFldexp]. rewrite Z.add_0_r. apply binary_round_53; [assumption | lia].
  - split; [lia|].
    pose proof (Pos.size_gt p) as G. rewrite <- digits2_size in G.
    assert (Zpos p < 2 ^ Zpos (digits2_pos p))%Z by (rewrite <- Pos2Z.inj_pow; lia).
    assert (2 ^ Zpos (digits2_pos p) <= 2 ^ 53)%Z by (apply Z.pow_le_mono_r; lia).
    change Uint63.wB with (2 ^ 63)%Z.
    assert (2 ^ 53 < 2 ^ 63)%Z by reflexivity. lia.
Qed.

End FloatRep.

(** ** [clampi] yields a byte *)

Module ClampFacts.

Import JSNumber NumberMore FloatRep.
Local Open Scope float_scope.

Lemma Prim2SF_255 : Prim2SF 255 = S754_finite false 8972014882652160 (-45).
Proof. vm_compute. reflexivity. Qed.

Lemma Prim2SF_zero : Prim2SF 0 = S754_zero false.
Proof. vm_compute. reflexivity. Qed.

Lemma Prim2SF_of_Z_neg (p : positive) :
  (Zpos (digits2_pos p) <= 53)%Z ->
  Prim2SF (of_Z (Zneg p))
  = S754_finite true (fst (normal_of_pos p)) (snd (normal_of_pos p)).
Proof.
  intros H.
  change (of_Z (Zneg p)) with (- of_Z (Zpos p)).
  now rewrite opp_spec, Prim2SF_of_Z_pos.
Qed.

(** The class of a number decides [isNaN] and the test against zero. *)
Lemma is_nan_SF (x : float) :
  is_nan x = match Prim2SF x with S754_nan => true | _ => false end.
Proof.
  unfold is_nan. rewrite eqb_spec. unfold SFeqb.
  destruct (Prim2SF x) as [s|s| |s m e]; try reflexivity.
  - now destruct s.
  - cbn. destruct s; rewrite Z.compare_refl, Pos.compare_cont_refl; reflexivity.
Qed.

Lemma is_zero_SF (x : float) :
  is_zero x = match Prim2SF x with S754_zero _ => true | _ => false end.
Proof.
  unfold is_zero. change zero with 0. rewrite eqb_spec, Prim2SF_zero. unfold SFeqb.
  destruct (Prim2SF x) as [s|s| |s m e]; try reflexivity; now destruct s.
Qed.

Lemma clamp_255 : Math_max 0 (Math_min 255 255) = of_Z 255.
Proof. vm_compute. reflexivity. Qed.

(** A number above 255 is clamped to 255 and a negative one to 0. *)
Lemma clamp_int_high (y : float) (m : positive) (e : Z) :
  Prim2SF y = S754_finite false m e -> (-45 < e)%Z -> clamp_int y = of_Z 255.
Proof.
  intros Hy He. unfold clamp_int, or_else, truthy.
  rewrite is_nan_SF, is_zero_SF, Hy. cbn [orb negb].
  unfold Math_min. rewrite (is_nan_SF y), Hy.
  change (is_nan 255 || false) with false. cbv iota.
  assert (L : (255 <? y) = true).
  { rewrite ltb_spec, Prim2SF_255, Hy. unfold SFltb, SFcompare.
    destruct (Z.compare_spec (-45) e) as [E|E|E]; [lia | reflexivity | lia]. }
  rewrite L. vm_compute. reflexivity.
Qed.

Lemma clamp_int_negative (y : float) (m : positive) (e : Z) :
  Prim2SF y = S754_finite true m e -> clamp_int y = of_Z 0.
Proof.
  intros Hy. unfold clamp_int, or_else, truthy.
  rewrite is_nan_SF, is_zero_SF, Hy. cbn [orb negb].
  unfold Math_min. rewrite (is_nan_SF y), Hy.
  change (is_nan 255 || false) with false. cbv iota.
  assert (L : (255 <? y) = false)
    by (rewrite ltb_spec, Prim2SF_255, Hy; reflexivity).
  assert (L' : (y <? 255) = true)
    by (rewrite ltb_spec, Prim2SF_255, Hy; reflexivity).
  rewrite L, L'.
  unfold Math_max. rewrite (is_nan_SF y), Hy.
  change (is_nan 0 || false) with false. cbv iota.
  assert (L0 : (0 <? y) = false)
    by (rewrite ltb_spec, Prim2SF_zero, Hy; reflexivity).
  assert (L0' : (y <? 0) = true)
    by (rewrite ltb_spec, Prim2SF_zero, Hy; reflexivity).
  rewrite L0, L0'. reflexivity.
Qed.

Lemma clamp_int_inf (y : float) (s : bool) :
  Prim2SF y = S754_infinity s -> clamp_int y = of_Z (if s then 0 else 255).
Proof.
  intros Hy. unfold clamp_int, or_else, truthy.
  rewrite is_nan_SF, is_zero_SF, Hy. cbn [orb negb].
  unfold Math_min. rewrite (is_nan_SF y), Hy.
  change (is_nan 255 || false) with false. cbv iota.
  destruct s.
  - assert (L : (255 <? y) = false)
      by (rewrite ltb_spec, Prim2SF_255, Hy; reflexivity).
    assert (L' : (y <? 255) = true)
      by (rewrite ltb_spec, Prim2SF_255, Hy; reflexivity).
    rewrite L, L'.
    unfold Math_max. rewrite (is_nan_SF y), Hy.
    change (is_nan 0 || false) with false. cbv iota.
    assert (L0 : (0 <? y) = false)
      by (rewrite ltb_spec, Prim2SF_zero, Hy; reflexivity).
    assert (L0' : (y <? 0) = true)
      by (rewrite ltb_spec, Prim2SF_zero, Hy; reflexivity).
    rewrite L0, L0'. reflexivity.
  - assert (L : (255 <? y) = true)
      by (rewrite ltb_spec, Prim2SF_255, Hy; reflexivity).
    rewrite L. vm_compute. reflexivity.
Qed.

Lemma clamp_int_falsy (y : float) :
  match Prim2SF y with S754_zero _ | S754_nan => True | _ => False end ->
  clamp_int y = of_Z 0.
Proof.
  intros Hy. unfold clamp_int, or_else, truthy.
  rewrite is_nan_SF, is_zero_SF.
  destruct (Prim2SF y); try contradiction; vm_compute; reflexivity.
Qed.

Lemma clamp_int_byte (k : Z) :
  (0 <= k <= 255)%Z -> clamp_int (of_Z k) = of_Z k.
Proof.
  intros H.
  pose (P := fun k => PrimFloat.Leibniz.eqb (clamp_int (of_Z k)) (of_Z k)).
  assert (HP : forallb P (ColorSpec.below 256) = true) by (vm_compute; reflexivity).
  apply FloatAxioms.Leibniz.eqb_spec.
  apply (HexFacts.below_forallb P 256 HP). lia.
Qed.

Lemma digits2_le (p m : positive) :
  (p <= m)%positive -> (Zpos (digits2_pos p) <= Zpos (digits2_pos m))%Z.
Proof.
  intros H. rewrite (digits2_size p), (digits2_size m).
  pose proof (Pos.size_le p) as Hp. pose proof (Pos.size_gt m) as Hm.
  assert (A : (2 ^ Zpos (Pos.size p) <= 2 * Zpos p)%Z)
    by (rewrite <- Pos2Z.inj_pow; lia).
  assert (B : (Zpos m < 2 ^ Zpos (Pos.size m))%Z)
    by (rewrite <- Pos2Z.inj_pow; lia).
  assert (C : (2 ^ Zpos (Pos.size p) < 2 ^ (Zpos (Pos.size m) + 1))%Z)
    by (rewrite Z.pow_add_r, Z.pow_1_r by lia; lia).
  apply (Z.pow_lt_mono_r_iff 2%Z) in C; lia.
Qed.

Lemma digits2_ge_9 (p : positive) :
  (256 <= Zpos p)%Z -> (9 <= Zpos (digits2_pos p))%Z.
Proof.
  intros H. rewrite digits2_size.
  pose proof (Pos.size_gt p) as Hp.
  assert (A : (Zpos p < 2 ^ Zpos (Pos.size p))%Z)
    by (rewrite <- Pos2Z.inj_pow; lia).
  assert (C : (2 ^ 8 < 2 ^ Zpos (Pos.size p))%Z)
    by (change (2 ^ 8)%Z with 256%Z; lia).
  apply (Z.pow_lt_mono_r_iff 2%Z) in C; lia.
Qed.

Lemma valid_digits (x : float) (s : bool) (m : positive) (e : Z) :
  Prim2SF x = S754_finite s m e -> (Zpos (digits2_pos m) <= 53)%Z.
Proof.
  intros Hx. pose proof (Prim2SF_valid x) as V. rewrite Hx in V.
  cbn in V. apply andb_true_iff in V as [V _].
  unfold canonical_mantissa, fexp, emin, prec, emax in V.
  apply Z.eqb_eq in V. lia.
Qed.

(** [clampi] always yields one of the integers 0, ..., 255. *)
Lemma clampi_byte (v : float) :
  exists k, (0 <= k <= 255)%Z /\ D3.clampi v = of_Z k.
Proof.
  change (D3.clampi v) with (clamp_int (Math_round v)).
  unfold Math_round.
  destruct (Prim2SF v) as [s|s| |s m e] eqn:Hv.
  - exists 0%Z. split; [lia|]. apply clamp_int_falsy. now rewrite Hv.
  - exists (if s then 0 else 255)%Z. split; [destruct s; lia|].
    rewrite (clamp_int_inf v s Hv). now destruct s.
  - exists 0%Z. split; [lia|]. apply clamp_int_falsy. now rewrite Hv.
  - pose proof (valid_digits v s m e Hv) as Hd.
    destruct (Z.leb_spec 0 e) as [He|He].
    + destruct s.
      * exists 0%Z. split; [lia|]. now apply (clamp_int_negative v m e).
      * exists 255%Z. split; [lia|]. apply (clamp_int_high v m e); [assumption|lia].
    + set (d := (2 ^ (- e))%Z).
      assert (Hd2 : (2 <= d)%Z).
      { unfold d. change 2%Z with (2 ^ 1)%Z at 1. apply Z.pow_le_mono_r; lia. }
      set (n := (((if s then - (2 * Z.pos m) else 2 * Z.pos m) + d) / (2 * d))%Z).
      assert (Hn : (- Zpos m <= n <= Zpos m)%Z).
      { unfold n. destruct s; split.
        - apply Z.div_le_lower_bound; nia.
        - apply Z.lt_succ_r, Z.div_lt_upper_bound; nia.
        - transitivity 0%Z; [lia|]. apply Z.div_pos; lia.
        - apply Z.lt_succ_r, Z.div_lt_upper_bound; nia. }
      destruct n as [|p|p] eqn:En; cbn [Z.eqb].
      * exists 0%Z. split; [lia|]. destruct s; vm_compute; reflexivity.
      * assert (Hp : (Zpos (digits2_pos p) <= 53)%Z).
        { etransitivity; [apply (digits2_le p m); lia | assumption]. }
        destruct (Z.le_gt_cases (Zpos p) 255) as [Hs|Hl].
        -- exists (Zpos p). split; [lia|]. apply clamp_int_byte. lia.
        -- exists 255%Z. split; [lia|].
           apply (clamp_int_high _ _ _ (Prim2SF_of_Z_pos p Hp)).
           destruct (normal_of_pos_spec p Hp) as [_ ->].
           pose proof (digits2_ge_9 p ltac:(lia)). lia.
      * assert (Hp : (Zpos (digits2_pos p) <= 53)%Z).
        { etransitivity; [apply (digits2_le p m); lia | assumption]. }
        exists 0%Z. split; [lia|].
        apply (clamp_int_negative _ _ _ (Prim2SF_of_Z_neg p Hp)).
Qed.

End ClampFacts.

(** ** Every formatted colour is canonical *)

Module FormatFacts.

Import JSNumber NumberMore FloatRep ClampFacts ColorSpec HexFacts Canonical.

Local Open Scope float_scope.

Lemma hex_of_byte (k : Z) :
  (0 <= k <= 255)%Z ->
  append (if of_Z k <? 16 then "0" else "") (JS.toString16 (trunc_Z (of_Z k)))
  = String (digit_char (k / 16)) (String (digit_char (k mod 16)) EmptyString).
Proof.
  intros H.
  pose (P := fun k =>
    String.eqb
      (append (if of_Z k <? 16 then "0" else "") (JS.toString16 (trunc_Z (of_Z k))))
      (String (digit_char (k / 16)) (String (digit_char (k mod 16)) EmptyString))).
  assert (HP : forallb P (below 256) = true) by (vm_compute; reflexivity).
  apply String.eqb_eq. apply (below_forallb P 256 HP). lia.
Qed.

Lemma digit_char_hex (d : Z) :
  (0 <= d < 16)%Z -> D3.hex_digit (digit_char d) = Some d.
Proof.
  intros H.
  pose (P := fun d => match D3.hex_digit (digit_char d) with
                      | Some d' => Z.eqb d' d
                      | None => false
                      end).
  assert (HP : forallb P (below 16) = true) by (vm_compute; reflexivity).
  pose proof (below_forallb P 16 HP d H) as E. unfold P in E.
  destruct (D3.hex_digit (digit_char d)); [|discriminate].
  apply Z.eqb_eq in E. now subst.
Qed.

(** [hex] always prints two digits of the class [[0-9a-f]]. *)
Lemma hex_two_digits (v : float) :
  exists d1 d2, (0 <= d1 < 16)%Z /\ (0 <= d2 < 16)%Z
    /\ D3.hex v = String (digit_char d1) (String (digit_char d2) EmptyString).
Proof.
  destruct (clampi_byte v) as (k & Hk & E).
  exists (k / 16)%Z, (k mod 16)%Z.
  split; [split; [apply Z.div_pos; lia | apply Z.div_lt_upper_bound; lia]|].
  split; [apply Z.mod_pos_bound; lia|].
  unfold D3.hex. cbv zeta. rewrite E. now apply hex_of_byte.
Qed.

Lemma rgb_formatHex_canonical (o : D3.Rgb) :
  is_canonical (D3.rgb_formatHex o) = true.
Proof.
  unfold D3.rgb_formatHex.
  destruct (hex_two_digits (D3.r o)) as (a1 & a2 & A1 & A2 & ->).
  destruct (hex_two_digits (D3.g o)) as (b1 & b2 & B1 & B2 & ->).
  destruct (hex_two_digits (D3.b o)) as (c1 & c2 & C1 & C2 & ->).
  cbn [append is_canonical String.length Nat.eqb andb D3.all_hex].
  now rewrite !digit_char_hex.
Qed.

End FormatFacts.

(** ** The colour utilities: further properties *)

Module ColorExtra.

Import JSNumber ColorSpec HexFacts NormalizeFacts Canonical FormatFacts.

Local Open Scope float_scope.

Lemma all_hex_is_hex_digit (digits : string) :
  D3.all_hex digits = true ->
  forallb is_hex_digit (list_ascii_of_string digits) = true
  /\ D3.toLowerCase digits = digits.
Proof.
  induction digits as [|a s IH]; simpl; [now split|].
  destruct (D3.hex_digit a) eqn:E; [|discriminate].
  intros H. destruct (IH H) as [-> ->].
  assert (is_hex_digit a = true /\ D3.lower_char a = a) as [-> ->]; [|now split].
  clear -E.
  destruct a as [[] [] [] [] [] [] [] []]; try discriminate; split; reflexivity.
Qed.

(** A canonical colour string is a fixed point of [normalizeHex]. *)
Lemma normalizeHex_canonical
    (other : string -> option D3.Color)
    (hsl_rgb : float -> float -> float -> float -> D3.Rgb) (c : string) :
  is_canonical c = true -> ColorUtils.normalizeHex other hsl_rgb c = c.
Proof.
  destruct c as [|a digits]; [discriminate|].
  unfold is_canonical.
  destruct a as [[] [] [] [] [] [] [] []]; try discriminate.
  intros H. apply andb_true_iff in H as [Hl Hd]. apply Nat.eqb_eq in Hl.
  destruct (all_hex_is_hex_digit digits Hd) as [Hh Hlow].
  rewrite normalizeHex_hex6 by assumption. now rewrite Hlow.
Qed.

Section Properties.

Variable other : string -> option D3.Color.
Variable hsl_rgb : float -> float -> float -> float -> D3.Rgb.
Variable formatRgb : D3.Color -> string.
Variable formatHsl : D3.Color -> string.
Variable rgb2lch : D3.Rgb -> D3.Hcl.
Variable lch2rgb : D3.Hcl -> D3.Rgb.
Variable Number_toString : float -> string.

(** X10.  Whatever the input string, the adjustment parameters and the
    colour-space conversion of the library, every colour string returned
    by [normalizeHex], [getColorFormats] (field [hex]), [getAnalogous],
    [getShades], [getTones], [getTriads], [getComplementary] and
    [adjustColor] is a hash sign followed by six digits of [[0-9a-f]]:
    [NaN], infinite or out-of-range channels never reach the output. *)
Theorem outputs_canonical
    (input : string) (brightness saturation warmth : float) :
  is_canonical (ColorUtils.normalizeHex other hsl_rgb input) = true
  /\ is_canonical
       (ColorUtils.hex
          (ColorUtils.getColorFormats other hsl_rgb formatRgb formatHsl rgb2lch
             Number_toString input)) = true
  /\ Forall (fun c => is_canonical c = true)
       (Harmony.getAnalogous other hsl_rgb rgb2lch lch2rgb input)
  /\ Forall (fun c => is_canonical c = true)
       (ColorUtils.getShades other hsl_rgb rgb2lch lch2rgb input)
  /\ Forall (fun c => is_canonical c = true)
       (ColorUtils.getTones other hsl_rgb rgb2lch lch2rgb input)
  /\ Forall (fun c => is_canonical c = true)
       (Harmony.getTriads other hsl_rgb rgb2lch lch2rgb input)
  /\ is_canonical
       (ColorUtils.getComplementary other hsl_rgb rgb2lch lch2rgb input) = true
  /\ is_canonical
       (ColorUtils.adjustColor other hsl_rgb rgb2lch lch2rgb input
          brightness saturation warmth) = true.
Proof.
  assert (N : is_canonical (ColorUtils.normalizeHex other hsl_rgb input) = true).
  { unfold ColorUtils.normalizeHex.
    destruct (D3.color other input); [apply rgb_formatHex_canonical | reflexivity]. }
  split; [exact N|].
  split.
  { unfold ColorUtils.getColorFormats, ColorUtils.normalizeHex in *.
    destruct (D3.color other input); [apply rgb_formatHex_canonical | reflexivity]. }
  repeat split; repeat constructor; apply rgb_formatHex_canonical.
Qed.

(** X11.  [normalizeHex] is idempotent, and the field [hex] of
    [getColorFormats] is [normalizeHex] of the same input. *)
Theorem normalizeHex_idempotent (input : string) :
  ColorUtils.normalizeHex other hsl_rgb
    (ColorUtils.normalizeHex other hsl_rgb input)
  = ColorUtils.normalizeHex other hsl_rgb input
  /\ ColorUtils.hex
       (ColorUtils.getColorFormats other hsl_rgb formatRgb formatHsl rgb2lch
          Number_toString input)
     = ColorUtils.normalizeHex other hsl_rgb input.
Proof.
  split.
  - apply normalizeHex_canonical.
    unfold ColorUtils.normalizeHex.
    destruct (D3.color other input); [apply rgb_formatHex_canonical | reflexivity].
  - unfold ColorUtils.getColorFormats, ColorUtils.normalizeHex.
    now destruct (D3.color other input).
Qed.

(** X12.  On a hash sign followed by six hexadecimal digits of either
    case, [normalizeHex] returns the same digits in lowercase. *)
Theorem normalizeHex_six_digits (digits : string) :
  String.length digits = 6%nat ->
  forallb is_hex_digit (list_ascii_of_string digits) = true ->
  ColorUtils.normalizeHex other hsl_rgb (String "#" digits)
  = String "#" (D3.toLowerCase digits).
Proof. apply normalizeHex_hex6. Qed.

End Properties.

Lemma normalizeHex_six_digits_witness :
  ColorUtils.normalizeHex no_other no_hsl "#F27D26" = "#f27d26"%string.
Proof.
  apply (normalizeHex_six_digits no_other no_hsl "F27D26"); reflexivity.
Defined.

End ColorExtra.

(** ** [normalizeHex] on the other lengths of hexadecimal notation *)

Module ShorthandFacts.

Import JSNumber ColorSpec HexFacts NormalizeFacts.

Lemma all_hex_lower (digits : string) :
  forallb is_hex_digit (list_ascii_of_string digits) = true ->
  D3.all_hex (D3.toLowerCase digits) = true.
Proof.
  induction digits as [|a s IH]; simpl; [reflexivity|].
  intros H. apply andb_true_iff in H as [Ha Hs].
  destruct (hex_digit_lower a Ha) as (d & -> & _). now apply IH.
Qed.

(** The channels that [d3.color] computes from three digits. *)
Lemma shorthand_channels (d1 d2 d3 : Z) :
  0 <= d1 < 16 -> 0 <= d2 < 16 -> 0 <= d3 < 16 ->
  let m := ((0 * 16 + d1) * 16 + d2) * 16 + d3 in
  Z.lor (Z.land (Z.shiftr m 8) 15) (Z.land (Z.shiftr m 4) 240) = d1 * 16 + d1
  /\ Z.lor (Z.land (Z.shiftr m 4) 15) (Z.land m 240) = d2 * 16 + d2
  /\ Z.lor (Z.shiftl (Z.land m 15) 4) (Z.land m 15) = d3 * 16 + d3.
Proof.
  intros H1 H2 H3.
  pose (P := fun d1 d2 d3 =>
    let m := ((0 * 16 + d1) * 16 + d2) * 16 + d3 in
    (Z.lor (Z.land (Z.shiftr m 8) 15) (Z.land (Z.shiftr m 4) 240) =? d1 * 16 + d1)
    && (Z.lor (Z.land (Z.shiftr m 4) 15) (Z.land m 240) =? d2 * 16 + d2)
    && (Z.lor (Z.shiftl (Z.land m 15) 4) (Z.land m 15) =? d3 * 16 + d3)).
  assert (HP : forallb (fun a => forallb (fun b => forallb (P a b) (below 16))
                                         (below 16)) (below 16) = true)
    by (vm_compute; reflexivity).
  assert (E : P d1 d2 d3 = true).
  { apply (below_forallb (P d1 d2) 16); [|assumption].
    apply (below_forallb (fun b => forallb (P d1 b) (below 16)) 16); [|assumption].
    now apply (below_forallb
      (fun a => forallb (fun b => forallb (P a b) (below 16)) (below 16)) 16). }
  unfold P in E. cbv zeta in E |- *.
  apply andb_true_iff in E as [E E3]. apply andb_true_iff in E as [E1 E2].
  apply Z.eqb_eq in E1, E2, E3. auto.
Qed.

Section Properties.

Variable other : string -> option D3.Color.
Variable hsl_rgb : float -> float -> float -> float -> D3.Rgb.

(** X13.  On the three-digit shorthand, [normalizeHex] doubles each
    digit and returns the six digits in lowercase: "#Abc" becomes
    "#aabbcc". *)
Theorem normalizeHex_shorthand (a1 a2 a3 : ascii) :
  is_hex_digit a1 = true -> is_hex_digit a2 = true -> is_hex_digit a3 = true ->
  ColorUtils.normalizeHex other hsl_rgb
    (String "#" (String a1 (String a2 (String a3 EmptyString))))
  = String "#"
      (String (D3.lower_char a1) (String (D3.lower_char a1)
      (String (D3.lower_char a2) (String (D3.lower_char a2)
      (String (D3.lower_char a3) (String (D3.lower_char a3) EmptyString)))))).
Proof.
  intros H1 H2 H3.
  destruct (hex_digit_lower a1 H1) as (d1 & E1 & R1 & C1).
  destruct (hex_digit_lower a2 H2) as (d2 & E2 & R2 & C2).
  destruct (hex_digit_lower a3 H3) as (d3 & E3 & R3 & C3).
  unfold ColorUtils.normalizeHex, D3.color.
  rewrite trim_hash
    by (simpl; now rewrite !hex_digit_not_space by assumption).
  cbn [D3.toLowerCase]. change (D3.lower_char "#") with "#"%char.
  unfold D3.reHex. cbn [String.length D3.all_hex].
  rewrite E1, E2, E3. cbn [Nat.leb Nat.eqb andb].
  unfold D3.parseInt16. cbn [D3.parseInt16_from].
  rewrite E1. cbn [D3.parseInt16_from].
  rewrite E2. cbn [D3.parseInt16_from].
  rewrite E3.
  destruct (shorthand_channels d1 d2 d3 R1 R2 R3) as (U1 & U2 & U3).
  cbv zeta in U1, U2, U3.
  cbn [String.length Nat.eqb].
  unfold D3.formatHex, D3.to_rgb, D3.rgb_formatHex. cbn [D3.r D3.g D3.b].
  rewrite U1, U2, U3, !hex_byte by assumption.
  rewrite C1, C2, C3. reflexivity.
Qed.

(** X14.  A hash sign followed by five or seven hexadecimal digits is
    rejected by the parser, so [normalizeHex] returns black; this is what
    happens to the seven-digit strings that the quantizer emits for an
    overflowed channel. *)
Theorem normalizeHex_bad_length (digits : string) :
  String.length digits = 5%nat \/ String.length digits = 7%nat ->
  forallb is_hex_digit (list_ascii_of_string digits) = true ->
  D3.color other (String "#" digits) = None
  /\ ColorUtils.normalizeHex other hsl_rgb (String "#" digits) = "#000000"%string.
Proof.
  intros Hlen Hhex.
  assert (E : D3.color other (String "#" digits) = None).
  { unfold D3.color.
    rewrite trim_hash by now apply hex_digits_no_space.
    cbn [D3.toLowerCase]. change (D3.lower_char "#") with "#"%char.
    unfold D3.reHex. rewrite toLowerCase_length, (all_hex_lower _ Hhex).
    destruct Hlen as [Hl | Hl]; rewrite Hl; cbn [Nat.leb andb];
      rewrite toLowerCase_length, Hl; reflexivity. }
  split; [exact E|]. unfold ColorUtils.normalizeHex. now rewrite E.
Qed.

End Properties.

Lemma normalizeHex_shorthand_witness :
  ColorUtils.normalizeHex no_other no_hsl "#Abc" = "#aabbcc"%string.
Proof.
  apply (normalizeHex_shorthand no_other no_hsl "A" "b" "c"); reflexivity.
Defined.

Lemma normalizeHex_bad_length_witness :
  D3.color no_other "#1000000" = None
  /\ ColorUtils.normalizeHex no_other no_hsl "#1000000" = "#000000"%string.
Proof.
  apply (normalizeHex_bad_length no_other no_hsl "1000000");
    [right; reflexivity | reflexivity].
Defined.

End ShorthandFacts.

(** ** The order of numbers *)

Module OrderFacts.

Import JSNumber ClampFacts.

Local Open Scope float_scope.

Lemma SFcompare_antisym (x y : spec_float) :
  SFcompare y x = option_map CompOpp (SFcompare x y).
Proof.
  destruct x as [s|s| |s m e], y as [s'|s'| |s' m' e']; try reflexivity;
    try (destruct s; reflexivity); try (destruct s'; reflexivity);
    try (destruct s, s'; reflexivity).
  cbn. destruct s, s'; try reflexivity.
  - rewrite (Z.compare_antisym e' e).
    destruct (e' ?= e)%Z; cbn; try reflexivity.
    now rewrite CompOpp_involutive, (Pos.compare_cont_antisym m' m Eq).
  - rewrite (Z.compare_antisym e' e).
    destruct (e' ?= e)%Z; cbn; try reflexivity.
    now rewrite (Pos.compare_cont_antisym m m' Eq).
Qed.

Lemma ltb_asym (x y : float) : (x <? y) = true -> (y <? x) = false.
Proof.
  rewrite !ltb_spec. unfold SFltb.
  rewrite (SFcompare_antisym (Prim2SF x) (Prim2SF y)).
  now destruct (SFcompare (Prim2SF x) (Prim2SF y)) as [[]|].
Qed.

(** Two numbers that are not [NaN] and of which neither is below the
    other compare as equal. *)
Lemma compare_Eq (x y : float) :
  is_nan x = false -> is_nan y = false ->
  (x <? y) = false -> (y <? x) = false ->
  SFcompare (Prim2SF x) (Prim2SF y) = Some Eq.
Proof.
  rewrite !is_nan_SF, !ltb_spec. unfold SFltb.
  rewrite (SFcompare_antisym (Prim2SF x) (Prim2SF y)).
  destruct (Prim2SF x) as [s|s| |s m e] eqn:Ex,
           (Prim2SF y) as [s'|s'| |s' m' e'] eqn:Ey; try discriminate;
    intros _ _;
    match goal with
    | |- context [SFcompare ?a ?b] => destruct (SFcompare a b) as [[]|] eqn:Ec
    end; cbn; try discriminate; try reflexivity;
    cbn in Ec; try destruct s; try destruct s'; discriminate.
Qed.

Lemma get_sign_zero (x : float) (s : bool) :
  Prim2SF x = S754_zero s -> Prim2SF x = S754_zero (get_sign x).
Proof.
  intros H.
  pose proof (is_nan_SF x) as Hn. pose proof (is_zero_SF x) as Hz.
  rewrite H in Hn, Hz.
  unfold Prim2SF. now rewrite Hn, Hz.
Qed.

(** Numbers that compare as equal are the same number, or two zeros. *)
Lemma compare_Eq_cases (x y : float) :
  SFcompare (Prim2SF x) (Prim2SF y) = Some Eq ->
  x = y \/ exists s s', Prim2SF x = S754_zero s /\ Prim2SF y = S754_zero s'.
Proof.
  intros H.
  destruct (Prim2SF x) as [s|s| |s m e] eqn:Ex,
           (Prim2SF y) as [s'|s'| |s' m' e'] eqn:Ey; cbn in H;
    try discriminate; try (destruct s; discriminate);
    try (destruct s'; discriminate).
  - right. now exists s, s'.
  - left. apply Prim2SF_inj. rewrite Ex, Ey.
    destruct s, s'; try discriminate; reflexivity.
  - left. apply Prim2SF_inj. rewrite Ex, Ey.
    destruct s, s'; try discriminate;
      destruct (Z.compare_spec e e') as [->|?|?]; try discriminate.
    + injection H as H.
      apply (f_equal CompOpp) in H. rewrite CompOpp_involutive in H. cbn in H.
      apply Pos.compare_eq in H. now subst.
    + injection H as H. apply Pos.compare_eq in H. now subst.
Qed.

Lemma Math_max_comm (x y : float) : Math_max x y = Math_max y x.
Proof.
  unfold Math_max. rewrite (orb_comm (is_nan y)).
  destruct (is_nan x) eqn:Nx; [reflexivity|].
  destruct (is_nan y) eqn:Ny; [reflexivity|]. cbn [orb].
  destruct (x <? y) eqn:Lxy.
  - now rewrite (ltb_asym _ _ Lxy).
  - destruct (y <? x) eqn:Lyx; [reflexivity|].
    destruct (compare_Eq_cases x y (compare_Eq x y Nx Ny Lxy Lyx))
      as [->|(s & s' & Hx & Hy)]; [now destruct (get_sign y)|].
    pose proof (get_sign_zero x s Hx) as Gx.
    pose proof (get_sign_zero y s' Hy) as Gy.
    destruct (get_sign x) eqn:Sx, (get_sign y) eqn:Sy; try reflexivity;
      apply Prim2SF_inj; congruence.
Qed.

Lemma Math_min_comm (x y : float) : Math_min x y = Math_min y x.
Proof.
  unfold Math_min. rewrite (orb_comm (is_nan y)).
  destruct (is_nan x) eqn:Nx; [reflexivity|].
  destruct (is_nan y) eqn:Ny; [reflexivity|]. cbn [orb].
  destruct (x <? y) eqn:Lxy.
  - now rewrite (ltb_asym _ _ Lxy).
  - destruct (y <? x) eqn:Lyx; [reflexivity|].
    destruct (compare_Eq_cases x y (compare_Eq x y Nx Ny Lxy Lyx))
      as [->|(s & s' & Hx & Hy)]; [now destruct (get_sign y)|].
    pose proof (get_sign_zero x s Hx) as Gx.
    pose proof (get_sign_zero y s' Hy) as Gy.
    destruct (get_sign x) eqn:Sx, (get_sign y) eqn:Sy; try reflexivity;
      apply Prim2SF_inj; congruence.
Qed.

Lemma Prim2SF_7 : Prim2SF 7 = S754_finite false 7881299347898368 (-50).
Proof. vm_compute. reflexivity. Qed.

Lemma Prim2SF_4_5 : Prim2SF 4.5 = S754_finite false 5066549580791808 (-50).
Proof. vm_compute. reflexivity. Qed.

Lemma Prim2SF_3 : Prim2SF 3 = S754_finite false 6755399441055744 (-51).
Proof. vm_compute. reflexivity. Qed.

(** The three thresholds are nested. *)
Lemma thresholds_nested (q : float) :
  ((7 <=? q) = true -> (4.5 <=? q) = true)
  /\ ((4.5 <=? q) = true -> (3 <=? q) = true).
Proof.
  rewrite !leb_spec, Prim2SF_7, Prim2SF_4_5, Prim2SF_3. unfold SFleb.
  destruct (Prim2SF q) as [s|s| |s m e].
  - cbn. split; discriminate.
  - destruct s; cbn; split; auto.
  - cbn. split; discriminate.
  - destruct s; [cbn; split; discriminate|].
    cbn [SFcompare].
    destruct (Z.compare_spec (-50) e) as [<-|Hlt|Hgt].
    + assert (Z.compare (-51) (-50) = Lt) as -> by reflexivity.
      split; [|reflexivity].
      change (Pos.compare_cont Eq 7881299347898368 m)
        with (Pos.compare 7881299347898368 m).
      change (Pos.compare_cont Eq 5066549580791808 m)
        with (Pos.compare 5066549580791808 m).
      destruct (Pos.compare_spec 7881299347898368 m) as [<-|Hl|Hg];
        try discriminate; intros _.
      * reflexivity.
      * destruct (Pos.compare_spec 5066549580791808 m) as [<-|Hl'|Hg'];
          try reflexivity.
        pose proof (Pos.lt_trans _ _ _ Hl Hg') as C.
        vm_compute in C. discriminate.
    + assert (Z.compare (-51) e = Lt) as -> by (apply Z.compare_lt_iff; lia).
      split; reflexivity.
    + split; discriminate.
Qed.

End OrderFacts.

(** ** The contrast checker: further properties *)

Module ContrastExtra.

Import JSNumber NumberSpec ColorSpec OrderFacts.

Local Open Scope float_scope.

Section Properties.

Variable other : string -> option D3.Color.
Variable hsl_rgb : float -> float -> float -> float -> D3.Rgb.
Variable Math_pow : float -> float -> float.
Variable Number_toString : float -> string.

(** X15.  [checkContrast] is symmetric: exchanging foreground and
    background gives the same ratio and the same three verdicts. *)
Theorem checkContrast_symmetric (foreground background : string) :
  ColorUtils.checkContrast other hsl_rgb Math_pow Number_toString
    foreground background
  = ColorUtils.checkContrast other hsl_rgb Math_pow Number_toString
      background foreground.
Proof.
  unfold ColorUtils.checkContrast. cbv zeta.
  now rewrite (Math_max_comm (ColorUtils.getLuminance Math_pow _)),
              (Math_min_comm (ColorUtils.getLuminance Math_pow _)).
Qed.

(** X16.  The three verdicts are nested: a pair of colours that passes
    AAA passes AA, and a pair that passes AA passes AA for large text. *)
Theorem checkContrast_levels_nested (foreground background : string) :
  let verdict :=
    ColorUtils.checkContrast other hsl_rgb Math_pow Number_toString
      foreground background in
  (ColorUtils.aaa verdict = true -> ColorUtils.aa verdict = true)
  /\ (ColorUtils.aa verdict = true -> ColorUtils.aaLarge verdict = true).
Proof.
  unfold ColorUtils.checkContrast. cbv zeta.
  cbn [ColorUtils.aaa ColorUtils.aa ColorUtils.aaLarge].
  apply thresholds_nested.
Qed.

End Properties.

Lemma checkContrast_levels_nested_witness :
  ColorUtils.aa
    (ColorUtils.checkContrast no_other no_hsl pow_by_roots toString_nonfinite
       "#ffffff" "#000000") = true.
Proof.
  apply (checkContrast_levels_nested no_other no_hsl pow_by_roots
           toString_nonfinite "#ffffff" "#000000").
  vm_compute. reflexivity.
Defined.

End ContrastExtra.

(** ** The component state: further properties *)

Module AppExtra.

Import Keys ColorSpec HexFacts NormalizeFacts AppFacts Canonical FormatFacts.
Import Handlers.

Section Properties.

Variable other : string -> option D3.Color.
Variable hsl_rgb : float -> float -> float -> float -> D3.Rgb.

Let normalized (seg : string) : string :=
  ColorUtils.normalizeHex other hsl_rgb ("#" ++ seg).

Lemma restore_cases (q : string) (st : App.State) :
  (List.length (JS.split "," q) <> 5%nat ->
   App.restore other hsl_rgb (Some q) st = st)
  /\ (List.length (JS.split "," q) = 5%nat ->
      App.restore other hsl_rgb (Some q) st
      = App.mkState (map normalized (JS.split "," q))
                    (nth 0 (map normalized (JS.split "," q)) "undefined")).
Proof.
  unfold App.restore. destruct q as [|a q].
  - split; [reflexivity | discriminate].
  - rewrite length_map. fold normalized.
    destruct (Nat.eqb_spec (List.length (JS.split "," (String a q))) 5) as [E|N];
      split; intros H; (reflexivity || contradiction).
Qed.

(** X17.  Restoring from the link changes the state only when the
    parameter splits into exactly five segments: an absent or empty
    parameter and any other number of segments leave the state as it was.
    With five segments the palette becomes the five normalized colours,
    each a canonical [#rrggbb] string (an unparsable segment becomes
    black), and the first one is selected. *)
Theorem restore_five_segments_only (q : string) (st : App.State) :
  App.restore other hsl_rgb None st = st
  /\ App.restore other hsl_rgb (Some EmptyString) st = st
  /\ (List.length (JS.split "," q) <> 5%nat ->
      App.restore other hsl_rgb (Some q) st = st)
  /\ (List.length (JS.split "," q) = 5%nat ->
      let st' := App.restore other hsl_rgb (Some q) st in
      App.palette st' = map normalized (JS.split "," q)
      /\ List.length (App.palette st') = 5%nat
      /\ Forall (fun c => is_canonical c = true) (App.palette st')
      /\ App.selectedColor st' = nth 0 (App.palette st') "undefined"
      /\ In (App.selectedColor st') (App.palette st')).
Proof.
  destruct (restore_cases q st) as [Hne Heq].
  split; [reflexivity|]. split; [reflexivity|]. split; [exact Hne|].
  intros H. cbv zeta. rewrite (Heq H). cbn [App.palette App.selectedColor].
  split; [reflexivity|].
  split; [rewrite length_map; exact H|].
  split.
  - apply Forall_map, Forall_forall. intros seg _. unfold normalized.
    unfold ColorUtils.normalizeHex.
    destruct (D3.color other ("#" ++ seg));
      [apply rgb_formatHex_canonical | reflexivity].
  - split; [reflexivity|].
    apply nth_In. rewrite length_map, H. lia.
Qed.

(** X18.  The state invariant "five colours, the selected one among
    them" holds initially, is kept by restoring from any link parameter
    and by [updatePaletteColor], and is established by applying a
    suggested palette. *)
Theorem consistent_preserved (st : App.State) (q : option string)
    (newColor : string) (p : list string) :
  consistent App.initial
  /\ (consistent st -> consistent (App.restore other hsl_rgb q st))
  /\ (consistent st -> consistent (fst (updatePaletteColor newColor st)))
  /\ (In p suggested -> consistent (fst (applySuggested p))).
Proof.
  split; [split; [reflexivity | now left]|].
  split; [|split].
  - intros Hc. destruct q as [q|]; [|exact Hc].
    destruct (Nat.eq_dec (List.length (JS.split "," q)) 5) as [E|N].
    + destruct (restore_five_segments_only q st) as (_ & _ & _ & H).
      destruct (H E) as (_ & Hl & _ & _ & Hin). now split.
    + destruct (restore_cases q st) as [Hne _]. now rewrite (Hne N).
  - intros [Hl Hin]. unfold updatePaletteColor, consistent.
    cbn [fst App.palette App.selectedColor]. split; [now rewrite length_map|].
    apply in_map_iff. exists (App.selectedColor st).
    split; [now rewrite String.eqb_refl | assumption].
  - intros Hp. unfold suggested in Hp.
    repeat (destruct Hp as [<-|Hp]; [split; [reflexivity | now left]|]).
    contradiction.
Qed.

(** X19.  A link written from a palette that does not have exactly five
    colours is not restored: the state stays as it was.  This is the case
    of a palette extracted from an image with fewer than five buckets. *)
Theorem short_palette_not_restored (colors : list string) (st : App.State) :
  List.length colors <> 5%nat ->
  Forall (fun c => is_rrggbb c = true) colors ->
  App.restore other hsl_rgb (Some (App.updateUrl colors)) st = st.
Proof.
  intros Hlen Hc.
  destruct colors as [|c colors]; [reflexivity|].
  destruct (updateUrl_segments (c :: colors) ltac:(discriminate) Hc) as (Hs & _).
  apply restore_cases. now rewrite Hs, length_map.
Qed.

(** X20.  [updatePaletteColor] replaces every occurrence of the selected
    colour: the palette keeps its length, the new colour is selected, the
    link is written from the new palette, the old colour no longer occurs
    (unless it is the new colour), and a palette that did not contain the
    selected colour is left unchanged. *)
Theorem updatePaletteColor_replaces_all (newColor : string) (st : App.State) :
  let st' := fst (updatePaletteColor newColor st) in
  List.length (App.palette st') = List.length (App.palette st)
  /\ App.selectedColor st' = newColor
  /\ snd (updatePaletteColor newColor st) = App.updateUrl (App.palette st')
  /\ (newColor <> App.selectedColor st ->
      ~ In (App.selectedColor st) (App.palette st'))
  /\ (In (App.selectedColor st) (App.palette st) -> In newColor (App.palette st'))
  /\ (~ In (App.selectedColor st) (App.palette st) ->
      App.palette st' = App.palette st)
  /\ (forall c, c <> App.selectedColor st ->
        In c (App.palette st) -> In c (App.palette st')).
Proof.
  unfold updatePaletteColor. cbv zeta. cbn [fst snd App.palette App.selectedColor].
  split; [now rewrite length_map|].
  split; [reflexivity|]. split; [reflexivity|].
  split; [|split; [|split]].
  - intros Hne Hin. apply in_map_iff in Hin as (c & E & _).
    destruct (String.eqb_spec c (App.selectedColor st)); congruence.
  - intros Hin. apply in_map_iff. exists (App.selectedColor st).
    split; [now rewrite String.eqb_refl | assumption].
  - intros Hn. rewrite <- (map_id (App.palette st)) at 2.
    apply map_ext_in. intros c Hc.
    destruct (String.eqb_spec c (App.selectedColor st)); [|reflexivity].
    subst. contradiction.
  - intros c Hne Hin. apply in_map_iff. exists c. split; [|assumption].
    destruct (String.eqb_spec c (App.selectedColor st)); [contradiction|reflexivity].
Qed.

End Properties.

Lemma restore_five_segments_only_witness :
  App.restore no_other no_hsl (Some "aabbcc,112233") App.initial = App.initial.
Proof.
  apply (restore_five_segments_only no_other no_hsl "aabbcc,112233" App.initial).
  vm_compute. discriminate.
Defined.

Lemma consistent_preserved_witness :
  consistent (App.restore no_other no_hsl (Some "a,b,c,d,e") App.initial).
Proof.
  apply (consistent_preserved no_other no_hsl App.initial (Some "a,b,c,d,e")
           EmptyString []).
  split; [reflexivity | now left].
Defined.

Lemma short_palette_not_restored_witness :
  App.restore no_other no_hsl (Some (App.updateUrl ["#202020"])) App.initial
  = App.initial.
Proof.
  apply (short_palette_not_restored no_other no_hsl ["#202020"] App.initial).
  - discriminate.
  - repeat constructor.
Defined.

Lemma updatePaletteColor_replaces_all_witness :
  ~ In "#141414" (App.palette (fst (updatePaletteColor "#ff0000" App.initial))).
Proof.
  apply (updatePaletteColor_replaces_all "#ff0000" App.initial).
  discriminate.
Defined.

End AppExtra.

(** ** Rounding to binary64 *)

Module RoundFacts.

Import JSNumber NumberMore FloatRep RoundSpec.

Lemma iter_pos_iter {A : Type} (f : A -> A) (n : positive) (x : A) :
  iter_pos f n x = Pos.iter f x n.
Proof.
  revert x. induction n as [n IH|n IH|]; intros x; cbn [iter_pos Pos.iter].
  - rewrite !IH. now rewrite <- !Pos.iter_swap.
  - now rewrite !IH.
  - reflexivity.
Qed.

Lemma shr_1_spec (mrs : shr_record) :
  0 <= shr_m mrs ->
  shr_m (shr_1 mrs) = shr_m mrs / 2
  /\ shr_r (shr_1 mrs) = Z.odd (shr_m mrs)
  /\ shr_s (shr_1 mrs) = shr_r mrs || shr_s mrs.
Proof.
  destruct mrs as [m r s]. cbn [shr_m shr_r shr_s]. intros H.
  destruct m as [|[p|p|]|p]; cbn [shr_1 shr_m shr_r shr_s]; try lia.
  - repeat split.
  - repeat split. rewrite Pos2Z.inj_xI.
    apply (Z.div_unique _ _ _ 1); lia.
  - repeat split. rewrite Pos2Z.inj_xO.
    apply (Z.div_unique _ _ _ 0); lia.
  - repeat split.
Qed.

Lemma iter_shr_1 (M : Z) (j : positive) :
  0 <= M ->
  shifted M j (iter_pos shr_1 j (Build_shr_record M false false)).
Proof.
  intros HM. rewrite iter_pos_iter.
  apply (Pos.iter_ind _ shr_1 _ (shifted M)).
  - destruct (shr_1_spec (Build_shr_record M false false) HM) as (E1 & E2 & E3).
    cbn [shr_m shr_r shr_s] in *. split.
    + now rewrite E1.
    + intros H0. rewrite E2, E3. split; [|reflexivity].
      change (2 ^ 1) with 2 in H0. rewrite Zodd_mod, H0. reflexivity.
  - intros p a [Hm Hrs].
    assert (Pp : 0 < 2 ^ Zpos p) by (apply Z.pow_pos_nonneg; lia).
    assert (Ha : 0 <= shr_m a) by (rewrite Hm; apply Z.div_pos; lia).
    destruct (shr_1_spec a Ha) as (E1 & E2 & E3).
    assert (Ep : 2 ^ Zpos (Pos.succ p) = 2 ^ Zpos p * 2)
      by (rewrite Pos2Z.inj_succ, Z.pow_succ_r; lia).
    split.
    + rewrite E1, Hm, Ep. rewrite Z.div_div; lia.
    + intros H0. rewrite Ep in H0.
      assert (Hq : M mod 2 ^ Zpos p = 0).
      { rewrite Z.rem_mul_r in H0 by lia.
        pose proof (Z.mod_pos_bound M (2 ^ Zpos p) Pp).
        pose proof (Z.mod_pos_bound (M / 2 ^ Zpos p) 2 ltac:(lia)). nia. }
      destruct (Hrs Hq) as [Hr Hs].
      rewrite E2, E3, Hr, Hs. split; [|reflexivity].
      rewrite Hm, Zodd_mod.
      rewrite Z.rem_mul_r in H0 by lia. rewrite Hq in H0.
      pose proof (Z.mod_pos_bound (M / 2 ^ Zpos p) 2 ltac:(lia)).
      assert ((M / 2 ^ Zpos p) mod 2 = 0) by nia.
      rewrite H1. reflexivity.
Qed.

Lemma digits2_bounds (p : positive) :
  2 ^ (Zpos (digits2_pos p) - 1) <= Zpos p < 2 ^ Zpos (digits2_pos p).
Proof.
  rewrite digits2_size.
  pose proof (Pos.size_gt p) as G. pose proof (Pos.size_le p) as L.
  apply Pos2Z.pos_lt_pos in G. apply Pos2Z.pos_le_pos in L.
  rewrite Pos2Z.inj_pow in G, L. rewrite (Pos2Z.inj_xO p) in L.
  replace (Zpos (Pos.size p)) with (Z.succ (Zpos (Pos.size p) - 1)) in L at 1 by lia.
  rewrite Z.pow_succ_r in L by lia. lia.
Qed.

Lemma Zdigits2_le (m d : Z) : 0 <= d -> 0 <= m < 2 ^ d -> Zdigits2 m <= d.
Proof.
  intros Hd [H0 H1]. destruct m as [|p|p]; cbn [Zdigits2]; try lia.
  destruct (digits2_bounds p) as [L _].
  assert (2 ^ (Zpos (digits2_pos p) - 1) < 2 ^ d) by lia.
  apply Z.pow_lt_mono_r_iff in H; lia.
Qed.

Lemma round_nearest_even_bounds (mrs : shr_record) :
  let m := round_nearest_even (shr_m mrs) (loc_of_shr_record mrs) in
  shr_m mrs <= m <= shr_m mrs + 1
  /\ (shr_r mrs = false /\ shr_s mrs = false -> m = shr_m mrs).
Proof.
  destruct mrs as [m [|] [|]]; cbn; repeat split; try lia;
    try (destruct (Z.even m); lia); intros [? ?]; discriminate.
Qed.

Lemma fexp_ge (z : Z) : -1074 <= fexp prec emax z.
Proof. unfold fexp, emin, prec, emax. lia. Qed.

(** Rounding a positive mantissa [M] at exponent [E]: the mantissa is
    shifted by [g] digits and rounded to one of the two neighbours. *)
Lemma binary_round_aux_spec (s : bool) (M : positive) (E : Z) :
  let g := fexp prec emax (Zpos (digits2_pos M) + E) - E in
  0 <= g ->
  exists m e,
    binary_round_aux prec emax s (Zpos M) E loc_Exact = finish s m e
    /\ 0 <= m /\ E + g <= e
    /\ (Zpos M / 2 ^ g) * 2 ^ g <= m * 2 ^ (e - E) <= (Zpos M / 2 ^ g + 1) * 2 ^ g
    /\ (Zpos M mod 2 ^ g = 0 -> m = Zpos M / 2 ^ g /\ e = E + g)
    /\ (e = E + g \/ e = E + g + 1 /\ Zpos M / 2 ^ g + 1 = 2 ^ 53).
Proof.
  intros g Hg.
  assert (Hfe : fexp prec emax (Zpos (digits2_pos M) + E) = E + g) by (unfold g; lia).
  pose proof (fexp_ge (Zpos (digits2_pos M) + E)) as Hmin. rewrite Hfe in Hmin.
  assert (Hdg : Zpos (digits2_pos M) - 53 <= g)
    by (unfold g, fexp, emin, prec, emax; lia).
  unfold binary_round_aux, shr_fexp. cbn [Zdigits2].
  replace (fexp prec emax (Zpos (digits2_pos M) + E) - E) with g by lia.
  clearbody g. destruct g as [|t|t]; [| |lia].
  - cbn [shr shr_record_of_loc shr_m loc_of_shr_record round_nearest_even Zdigits2].
    rewrite Hfe. replace (E + 0 - E) with 0 by lia. cbn [shr shr_record_of_loc shr_m].
    exists (Zpos M), E. rewrite Z.pow_0_r, Z.div_1_r, Z.sub_diag, Z.pow_0_r.
    split; [reflexivity|]. split; [lia|]. split; [lia|]. split; [lia|].
    split; [intros _; split; lia | left; lia].
  - cbn [shr shr_record_of_loc].
    destruct (iter_shr_1 (Zpos M) t ltac:(lia)) as [Hm Hrs].
    set (mrs := iter_pos shr_1 t _) in *.
    destruct (round_nearest_even_bounds mrs) as [Hb Hex].
    set (m1 := round_nearest_even (shr_m mrs) (loc_of_shr_record mrs)) in *.
    assert (P2 : 0 < 2 ^ Zpos t) by (apply Z.pow_pos_nonneg; lia).
    assert (Hm0 : 0 <= shr_m mrs) by (rewrite Hm; apply Z.div_pos; lia).
    assert (Hm53 : shr_m mrs < 2 ^ 53).
    { rewrite Hm. apply Z.div_lt_upper_bound; [lia|].
      destruct (digits2_bounds M) as [_ U].
      assert (2 ^ Zpos (digits2_pos M) <= 2 ^ (Zpos t + 53))
        by (apply Z.pow_le_mono_r; lia).
      rewrite Z.pow_add_r in H by lia. lia. }
    destruct (Z.eq_dec m1 (2 ^ 53)) as [E53|N53].
    + rewrite E53. change (Zdigits2 (2 ^ 53)) with 54.
      replace (fexp prec emax (54 + (E + Zpos t)) - (E + Zpos t)) with 1
        by (unfold fexp, emin, prec, emax; lia).
      cbn [shr shr_record_of_loc iter_pos].
      exists (2 ^ 52), (E + Zpos t + 1). split; [reflexivity|].
      split; [lia|]. split; [lia|].
      replace (E + Zpos t + 1 - E) with (Zpos t + 1) by lia.
      rewrite Z.pow_add_r by lia. rewrite <- Hm.
      change (2 ^ 52 * (2 ^ Zpos t * 2 ^ 1)) with (2 ^ 52 * (2 ^ Zpos t * 2)).
      assert (shr_m mrs + 1 = 2 ^ 53) by lia.
      split; [split|]; [ | |split; [intros H0; specialize (Hex (Hrs H0))|right]];
        try lia.
    + assert (Hd : Zdigits2 m1 <= 53) by (apply Zdigits2_le; lia).
      assert (Hn : fexp prec emax (Zdigits2 m1 + (E + Zpos t)) - (E + Zpos t) <= 0)
        by (unfold fexp, emin, prec, emax; lia).
      destruct (fexp prec emax (Zdigits2 m1 + (E + Zpos t)) - (E + Zpos t))
        as [|n2|n2]; [| lia |]; cbn [shr shr_record_of_loc shr_m];
        (exists m1, (E + Zpos t); split; [reflexivity|];
         split; [lia|]; split; [lia|];
         replace (E + Zpos t - E) with (Zpos t) by lia; rewrite <- Hm;
         split; [nia|]; split; [|left; reflexivity];
         intros H0; split; [apply Hex, Hrs, H0 | reflexivity]).
Qed.

Lemma finish_pos (s : bool) (m e : Z) :
  0 < m -> e <= 971 -> finish s m e = S754_finite s (Z.to_pos m) e.
Proof.
  intros Hm He. destruct m as [|p|p]; try lia. cbn [finish Z.to_pos].
  destruct (Z.leb_spec e (emax - prec)); [reflexivity|].
  unfold emax, prec in *. lia.
Qed.

(** A mantissa of 53 digits below the least exponent is shifted exactly
    when its low digits are zero. *)
Lemma binary_round_shift (s : bool) (P : positive) (e : Z) :
  digits2_pos P = 53%positive -> e < -1074 ->
  Zpos P mod 2 ^ (-1074 - e) = 0 ->
  0 < Zpos P / 2 ^ (-1074 - e)
  /\ binary_round prec emax s P e
     = S754_finite s (Z.to_pos (Zpos P / 2 ^ (-1074 - e))) (-1074).
Proof.
  intros Hd He Hmod.
  assert (F : fexp prec emax (Zpos (digits2_pos P) + e) = -1074)
    by (rewrite Hd; unfold fexp, emin, prec, emax; lia).
  assert (P2 : 0 < 2 ^ (-1074 - e)) by (apply Z.pow_pos_nonneg; lia).
  assert (Hq : 0 < Zpos P / 2 ^ (-1074 - e)).
  { pose proof (Z.div_mod (Zpos P) (2 ^ (-1074 - e)) ltac:(lia)) as Hdm.
    rewrite Hmod in Hdm.
    assert (0 <= Zpos P / 2 ^ (-1074 - e)) by (apply Z.div_pos; lia).
    assert (Zpos P / 2 ^ (-1074 - e) <> 0) by (intros Z0; rewrite Z0 in Hdm; lia).
    lia. }
  split; [exact Hq|].
  unfold binary_round, shl_align. rewrite F.
  destruct (-1074 - e) as [|t|t] eqn:Et; try lia.
  destruct (binary_round_aux_spec s P e) as (m & e' & R & _ & _ & _ & Hex & _).
  { rewrite F. lia. }
  rewrite F in Hex. rewrite Et in Hex. destruct (Hex Hmod) as [-> ->].
  rewrite R. replace (e + Zpos t) with (-1074) by lia.
  apply finish_pos; [exact Hq | lia].
Qed.

Lemma iter_xO_value (p d : positive) :
  Zpos (Pos.iter xO p d) = Zpos p * 2 ^ Zpos d.
Proof.
  induction d as [|d IH] using Pos.peano_ind.
  - cbn [Pos.iter]. lia.
  - rewrite Pos.iter_succ, Pos2Z.inj_xO, IH, Pos2Z.inj_succ, Z.pow_succ_r; lia.
Qed.

Lemma normal_of_pos_value (p : positive) :
  Zpos (digits2_pos p) <= 53 ->
  Zpos (fst (normal_of_pos p)) = Zpos p * 2 ^ (- snd (normal_of_pos p)).
Proof.
  intros H. unfold normal_of_pos.
  destruct (53 - Zpos (digits2_pos p)) as [|d|d] eqn:E; cbn [fst snd].
  - cbn. lia.
  - rewrite iter_xO_value. reflexivity.
  - lia.
Qed.

(** [SF2Prim] is exact on a mantissa of at most 53 digits at an exponent
    in range: the number has the value [p * 2^e]. *)
Lemma Prim2SF_SF2Prim_finite (s : bool) (p : positive) (e : Z) :
  Zpos (digits2_pos p) <= 53 -> -1074 <= e -> e + Zpos (digits2_pos p) <= 1024 ->
  exists m' e',
    Prim2SF (SF2Prim (S754_finite s p e)) = S754_finite s m' e'
    /\ e' <= e /\ Zpos m' = Zpos p * 2 ^ (e - e').
Proof.
  intros Hd He Hu.
  destruct (normal_of_pos_spec p Hd) as [HdP HK].
  pose proof (normal_of_pos_value p Hd) as HP.
  set (P := fst (normal_of_pos p)) in *. set (K := snd (normal_of_pos p)) in *.
  assert (Hpos : Prim2SF (Z.ldexp (of_uint63 (Uint63.of_Z (Zpos p))) e)
                 = binary_round prec emax false P (K + e)).
  { rewrite Z_ldexp_spec, of_uint63_spec, Uint63.of_Z_spec.
    rewrite Z.mod_small.
    - cbn [binary_normalize]. rewrite (binary_round_int false p Hd).
      reflexivity.
    - split; [lia|]. destruct (digits2_bounds p) as [_ U].
      assert (2 ^ Zpos (digits2_pos p) <= 2 ^ 53) by (apply Z.pow_le_mono_r; lia).
      change Uint63.wB with (2 ^ 63). assert (2 ^ 53 < 2 ^ 63) by reflexivity. lia. }
  assert (Hround : exists m' e',
             binary_round prec emax false P (K + e) = S754_finite false m' e'
             /\ e' <= e /\ Zpos m' = Zpos p * 2 ^ (e - e')).
  { destruct (Z_le_gt_dec (-1074) (K + e)) as [Hn|Hs].
    - exists P, (K + e). split; [apply binary_round_53; [exact HdP | lia]|].
      split; [lia|]. rewrite HP. f_equal. f_equal. lia.
    - assert (Hmod : Zpos P mod 2 ^ (-1074 - (K + e)) = 0).
      { rewrite HP.
        replace (- K) with ((- K - (-1074 - (K + e))) + (-1074 - (K + e)))
          by lia.
        rewrite Z.pow_add_r by lia. rewrite Z.mul_assoc. apply Z.mod_mul.
        apply Z.pow_nonzero; lia. }
      destruct (binary_round_shift false P (K + e) HdP ltac:(lia) Hmod) as [Hq R].
      exists (Z.to_pos (Zpos P / 2 ^ (-1074 - (K + e)))), (-1074).
      split; [exact R|]. split; [lia|].
      rewrite Z2Pos.id by exact Hq. rewrite HP.
      replace (- K) with ((e - -1074) + (-1074 - (K + e))) by lia.
      rewrite Z.pow_add_r by lia. rewrite Z.mul_assoc.
      apply Z.div_mul. apply Z.pow_nonzero; lia. }
  destruct Hround as (m' & e' & R & Hle & Hv).
  exists m', e'. split; [|split; assumption].
  unfold SF2Prim. destruct s.
  - rewrite opp_spec, Hpos, R. reflexivity.
  - rewrite Hpos, R. reflexivity.
Qed.

End RoundFacts.

(** ** Exact values: the remainder by 360 *)

Module ValueFacts.

Import QArith Qpower Lqa.
Import JSNumber NumberMore FloatRep RoundFacts NumberValue.

Local Open Scope Z_scope.

(** Closes an equation whose two sides are the same term. *)
Ltac same_term :=
  match goal with |- ?a = ?b => constr_eq a b; reflexivity end.

(** [v || 0]: an undefined or zero channel counts as 0. *)
Lemma or_else_0 (v : float) :
  or_else v 0%float = if is_nan v || is_zero v then 0%float else v.
Proof. unfold or_else, truthy. now destruct (is_nan v || is_zero v). Qed.

Lemma pow2_pos (e : Z) : (0 < 2 ^ e)%Q.
Proof. apply Qpower_0_lt. reflexivity. Qed.

Lemma dyadic_scale (z e j : Z) :
  0 <= j -> (dyadic (z * 2 ^ j) (e - j) == dyadic z e)%Q.
Proof.
  intros Hj. unfold dyadic.
  rewrite inject_Z_mult, (Zpower_Qpower 2 j Hj).
  replace e with ((e - j) + j) at 2 by lia.
  rewrite (Qpower_plus 2 (e - j) j) by discriminate.
  change (inject_Z 2) with 2%Q. ring.
Qed.

Lemma dyadic_add (a b e : Z) : (dyadic (a + b) e == dyadic a e + dyadic b e)%Q.
Proof. unfold dyadic. rewrite inject_Z_plus. ring. Qed.

Lemma dyadic_mul (k a e : Z) : (dyadic (k * a) e == inject_Z k * dyadic a e)%Q.
Proof. unfold dyadic. rewrite inject_Z_mult. ring. Qed.

Lemma dyadic_opp (a e : Z) : (dyadic (- a) e == - dyadic a e)%Q.
Proof. unfold dyadic. rewrite inject_Z_opp. ring. Qed.

Lemma dyadic_le (a b e : Z) : a <= b -> (dyadic a e <= dyadic b e)%Q.
Proof.
  intros H. unfold dyadic. rewrite Zle_Qle in H.
  pose proof (pow2_pos e). nra.
Qed.

Lemma dyadic_lt (a b e : Z) : a < b -> (dyadic a e < dyadic b e)%Q.
Proof.
  intros H. unfold dyadic. rewrite Zlt_Qlt in H.
  pose proof (pow2_pos e). nra.
Qed.

Lemma dyadic_0 (e : Z) : (dyadic 0 e == 0)%Q.
Proof. unfold dyadic. ring. Qed.

(** The mantissa and exponent of a number are canonical. *)
Lemma Prim2SF_finite_valid (x : float) (s : bool) (m : positive) (e : Z) :
  Prim2SF x = S754_finite s m e ->
  Zpos (digits2_pos m) <= 53 /\ -1074 <= e <= 971
  /\ (Zpos (digits2_pos m) = 53 \/ e = -1074).
Proof.
  intros H. pose proof (Prim2SF_valid x) as V. rewrite H in V.
  cbn [valid_binary] in V. unfold bounded, canonical_mantissa in V.
  apply andb_true_iff in V. destruct V as [V1 V2].
  apply Z.eqb_eq in V1. apply Z.leb_le in V2.
  unfold fexp, emin, prec, emax in *. lia.
Qed.

Lemma Prim2SF_360 : Prim2SF 360 = S754_finite false 6333186975989760 (-44).
Proof. vm_compute. reflexivity. Qed.

(** The remainder by 360 of a finite number, as an exact value. *)
Lemma rem_360_finite (x : float) (sn : bool) (mn : positive) (en : Z) :
  Prim2SF x = S754_finite sn mn en ->
  let e := Z.min en (-44) in
  let N := Zpos mn * 2 ^ (en - e) in
  let D := 6333186975989760 * 2 ^ (-44 - e) in
  exists vr,
    number_value (rem x 360) = Some vr
    /\ (vr == dyadic (if sn then - (N mod D) else N mod D) e)%Q.
Proof.
  intros H e N D.
  destruct (Prim2SF_finite_valid x sn mn en H) as (Hd & He & _).
  assert (PD : 0 < D) by (apply Z.mul_pos_pos; [lia | apply Z.pow_pos_nonneg; lia]).
  pose proof (Z.mod_pos_bound N D PD) as HR.
  unfold rem. rewrite H, Prim2SF_360. cbv beta iota zeta.
  fold e. fold N. change (Zpos 6333186975989760 * 2 ^ (-44 - e)) with D.
  destruct (N mod D) as [|p|p] eqn:ER; [| |lia].
  - exists 0%Q. split.
    + destruct sn; vm_compute; reflexivity.
    + destruct sn; cbn; now rewrite dyadic_0.
  - assert (Hp : Zpos p < 2 ^ 53).
    { destruct (Z.min_spec en (-44)) as [[Hlt Hmin]|[Hge Hmin]]; fold e in Hmin.
      - assert (EN : N = Zpos mn).
        { unfold N. rewrite Hmin, Z.sub_diag. simpl. lia. }
        destruct (digits2_bounds mn) as [_ U].
        assert (2 ^ Zpos (digits2_pos mn) <= 2 ^ 53) by (apply Z.pow_le_mono_r; lia).
        assert (N mod D <= N) by (apply Z.mod_le; lia). lia.
      - assert (ED : D = 6333186975989760).
        { unfold D. rewrite Hmin. reflexivity. }
        assert (6333186975989760 < 2 ^ 53) by reflexivity. lia. }
    assert (Hdp : Zpos (digits2_pos p) <= 53)
      by (apply (Zdigits2_le (Zpos p) 53); lia).
    destruct (Prim2SF_SF2Prim_finite sn p e Hdp ltac:(lia) ltac:(lia))
      as (m' & e' & R & Hle & Hv).
    unfold number_value. rewrite R. eexists. split; [reflexivity|].
    rewrite <- (dyadic_scale _ e (e - e')) by lia.
    replace (e - (e - e')) with e' by lia.
    destruct sn.
    + change (Zneg m') with (- Zpos m'). rewrite Hv.
      replace (- (Zpos p * 2 ^ (e - e'))) with (- Zpos p * 2 ^ (e - e')) by lia.
      reflexivity.
    + rewrite Hv. reflexivity.
Qed.

Lemma dyadic_360 (e : Z) :
  e <= -44 -> (dyadic (6333186975989760 * 2 ^ (-44 - e)) e == 360)%Q.
Proof.
  intros H.
  replace e with (-44 - (-44 - e)) at 2 by lia.
  rewrite dyadic_scale by lia. reflexivity.
Qed.

(** [x % 360] differs from [x] by a multiple of 360, lies in [[0, 360)]
    when [x] is not negative and in [(-360, 0]] when [x] is not
    positive. *)
Lemma rem_360_value (x : float) (vx : Q) :
  number_value x = Some vx ->
  exists (vr : Q) (k : Z),
    number_value (rem x 360) = Some vr
    /\ (vx == vr + 360 * inject_Z k)%Q
    /\ ((0 <= vx)%Q -> (0 <= vr)%Q /\ (vr < 360)%Q)
    /\ ((vx <= 0)%Q -> (- (360) < vr)%Q /\ (vr <= 0)%Q).
Proof.
  intros H. unfold number_value in H.
  destruct (Prim2SF x) as [s0| | |s m e] eqn:Hx; try discriminate.
  - injection H as <-. exists 0%Q, 0.
    assert (Er : rem x 360 = x).
    { unfold rem. rewrite Hx, Prim2SF_360. reflexivity. }
    rewrite Er. unfold number_value. rewrite Hx.
    repeat split; try reflexivity; try discriminate.
  - injection H as <-.
    destruct (rem_360_finite x s m e Hx) as (vr & Hvr & Heq).
    destruct (Prim2SF_finite_valid x s m e Hx) as (_ & He & _).
    set (e0 := Z.min e (-44)) in *.
    set (N := Zpos m * 2 ^ (e - e0)) in *.
    set (D := 6333186975989760 * 2 ^ (-44 - e0)) in *.
    assert (PD : 0 < D) by (apply Z.mul_pos_pos; [lia | apply Z.pow_pos_nonneg; lia]).
    pose proof (Z.mod_pos_bound N D PD) as HR.
    pose proof (Z.div_mod N D ltac:(lia)) as HN.
    pose proof (dyadic_360 e0 ltac:(lia)) as H360. fold D in H360.
    assert (PN : 0 < N) by (apply Z.mul_pos_pos; [lia | apply Z.pow_pos_nonneg; lia]).
    pose proof (dyadic_lt 0 N e0 PN) as HposN. rewrite dyadic_0 in HposN.
    pose proof (dyadic_le 0 (N mod D) e0 ltac:(lia)) as HR0. rewrite dyadic_0 in HR0.
    pose proof (dyadic_lt (N mod D) D e0 ltac:(lia)) as HRD. rewrite H360 in HRD.
    assert (HNv : (dyadic N e0 == inject_Z (N / D) * 360 + dyadic (N mod D) e0)%Q).
    { transitivity (dyadic (N / D * D + N mod D) e0).
      - replace (N / D * D + N mod D) with N by lia. reflexivity.
      - rewrite dyadic_add, dyadic_mul, H360. reflexivity. }
    destruct s.
    + exists vr, (- (N / D)).
      assert (Hv : (dyadic (Zneg m) e == - dyadic N e0)%Q).
      { rewrite <- dyadic_opp. unfold N.
        replace (- (Zpos m * 2 ^ (e - e0))) with (Zneg m * 2 ^ (e - e0)) by lia.
        replace e0 with (e - (e - e0)) at 2 by lia.
        rewrite dyadic_scale by lia. reflexivity. }
      rewrite dyadic_opp in Heq.
      split; [exact Hvr|]. rewrite Hv, Heq, inject_Z_opp.
      split; [rewrite HNv; ring|]. split; intros Hs; split; lra.
    + exists vr, (N / D).
      assert (Hv : (dyadic (Zpos m) e == dyadic N e0)%Q).
      { unfold N. replace e0 with (e - (e - e0)) at 2 by lia.
        rewrite dyadic_scale by lia. reflexivity. }
      split; [exact Hvr|]. rewrite Hv, Heq.
      split; [rewrite HNv; ring|]. split; intros Hs; split; lra.
Qed.

End ValueFacts.

(** ** Exact values: products by a factor below 1 *)

Module ScaleFacts.

Import QArith Qpower Lqa.
Import JSNumber NumberMore FloatRep RoundSpec RoundFacts NumberValue ValueFacts.

Local Open Scope Z_scope.

Lemma digits2_mul_le (a b : positive) :
  Zpos (digits2_pos (a * b)) <= Zpos (digits2_pos a) + Zpos (digits2_pos b).
Proof.
  destruct (digits2_bounds a) as [_ Ua]. destruct (digits2_bounds b) as [_ Ub].
  apply (Zdigits2_le (Zpos (a * b))); [lia|].
  rewrite Z.pow_add_r by lia. rewrite Pos2Z.inj_mul. split; [lia | nia].
Qed.

Lemma digits2_ge (a : positive) (d : Z) :
  2 ^ d <= Zpos a -> d < Zpos (digits2_pos a).
Proof.
  intros H. destruct (digits2_bounds a) as [_ U].
  destruct (Z_lt_le_dec d 0) as [?|Hd]; [lia|].
  apply (Z.pow_lt_mono_r_iff 2); lia.
Qed.

Lemma number_value_finish (y : float) (m e : Z) :
  Prim2SF y = finish false m e -> 0 <= m -> e <= 971 ->
  exists v, number_value y = Some v /\ (v == dyadic m e)%Q.
Proof.
  intros H Hm He. unfold number_value. rewrite H.
  destruct m as [|p|p]; [| |lia]; cbn [finish].
  - exists 0%Q. split; [reflexivity|]. now rewrite dyadic_0.
  - destruct (Z.leb_spec e (emax - prec)) as [_|C];
      [|unfold emax, prec in C; lia].
    eexists. split; reflexivity.
Qed.

(** The product of a positive number [mx * 2^ex] by a factor
    [mc * 2^ec] below 1, in units of [2^(ex - 56)]: the rounded product
    [W] is within [max (16 * mx) (2^56)] of the exact product. *)
Lemma mul_value (x c : float) (mx mc : positive) (ex ec : Z) :
  Prim2SF x = S754_finite false mx ex ->
  Prim2SF c = S754_finite false mc ec ->
  Zpos (digits2_pos mc) = 53 -> -56 <= ec <= -53 ->
  exists (v : Q) (W : Z),
    number_value (x * c) = Some v /\ (v == dyadic W (ex - 56))%Q
    /\ 0 <= W
    /\ Zpos mx * (Zpos mc * 2 ^ (ec + 56)) - Z.max (16 * Zpos mx) (2 ^ 56) < W
    /\ W <= Zpos mx * (Zpos mc * 2 ^ (ec + 56)) + Z.max (16 * Zpos mx) (2 ^ 56).
Proof.
  intros Hx Hc Hdc Hec.
  destruct (Prim2SF_finite_valid x false mx ex Hx) as (Hdx & Hex & Hcan).
  set (M := (mx * mc)%positive). set (E := ex + ec).
  pose proof (digits2_mul_le mx mc) as HdM. fold M in HdM.
  destruct (digits2_bounds mc) as [Lc Uc]. rewrite Hdc in Lc, Uc.
  change (2 ^ (53 - 1)) with (2 ^ 52) in Lc.
  assert (HM52 : 2 ^ 52 <= Zpos M) by (unfold M; rewrite Pos2Z.inj_mul; nia).
  pose proof (digits2_ge M 52 HM52) as HdM'.
  destruct (digits2_bounds mx) as [Lx Ux].
  assert (Ux' : Zpos mx < 2 ^ 53).
  { assert (2 ^ Zpos (digits2_pos mx) <= 2 ^ 53) by (apply Z.pow_le_mono_r; lia). lia. }
  set (g := fexp prec emax (Zpos (digits2_pos M) + E) - E).
  assert (Hg : g = Z.max (Zpos (digits2_pos M) - 53) (-1074 - E))
    by (unfold g, fexp, emin, prec, emax; lia).
  assert (Hg0 : 0 <= g) by lia.
  destruct (binary_round_aux_spec false M E Hg0)
    as (m & e & R & Hm & Hge & [Hlo Hhi] & _ & Hcarry).
  fold g in Hge, Hlo, Hhi, Hcarry.
  assert (P2g : 0 < 2 ^ g) by (apply Z.pow_pos_nonneg; lia).
  assert (He971 : e <= 971).
  { destruct Hcarry as [->|[-> Hc53]]; [lia|].
    destruct (Z_le_gt_dec (E + g + 1) 971) as [?|Hbig]; [assumption|exfalso].
    assert (g = 53) by lia. subst g. rewrite H in Hc53.
    assert (Zpos M / 2 ^ 53 < 2 ^ 53 - 1).
    { apply Z.div_lt_upper_bound; [lia|]. unfold M. rewrite Pos2Z.inj_mul.
      change (2 ^ 53) with 9007199254740992 in *. nia. }
    lia. }
  assert (Hmul : Prim2SF (x * c) = finish false m e).
  { rewrite mul_spec, Hx, Hc. cbn [SFmul xorb]. exact R. }
  destruct (number_value_finish (x * c) m e Hmul Hm He971) as (v & Hv & Hveq).
  exists v, (m * 2 ^ (e - E) * 2 ^ (ec + 56)).
  assert (P2e : 0 < 2 ^ (e - E)) by (apply Z.pow_pos_nonneg; lia).
  assert (P2c : 0 < 2 ^ (ec + 56)) by (apply Z.pow_pos_nonneg; lia).
  split; [exact Hv|]. split.
  { rewrite Hveq.
    replace (ex - 56) with (E - (ec + 56)) by (unfold E; lia).
    rewrite dyadic_scale by lia.
    replace E with (e - (e - E)) at 2 by lia.
    rewrite dyadic_scale by lia. reflexivity. }
  split; [nia|].
  (* The slack. *)
  assert (HS : 2 ^ g * 2 ^ (ec + 56) <= Z.max (16 * Zpos mx) (2 ^ 56)).
  { rewrite <- Z.pow_add_r by lia.
    destruct (Z.max_spec (Zpos (digits2_pos M) - 53) (-1074 - E)) as [[Hlt Hmx]|[Hle Hmx]];
      rewrite <- Hg in Hmx.
    - (* below the least exponent *)
      assert (2 ^ (g + (ec + 56)) <= 2 ^ 56)
        by (apply Z.pow_le_mono_r; unfold E in *; lia).
      lia.
    - assert (2 ^ (g + (ec + 56)) <= 2 ^ (Zpos (digits2_pos mx) - 1 + 4))
        by (apply Z.pow_le_mono_r; unfold E in *; lia).
      rewrite (Z.pow_add_r 2 (Zpos (digits2_pos mx) - 1) 4) in H by lia.
      change (2 ^ 4) with 16 in H. lia. }
  pose proof (Z.div_mod (Zpos M) (2 ^ g) ltac:(lia)) as Hdm.
  pose proof (Z.mod_pos_bound (Zpos M) (2 ^ g) P2g) as Hmb.
  assert (EM : Zpos M = Zpos mx * Zpos mc) by (unfold M; apply Pos2Z.inj_mul).
  replace (Zpos mx * (Zpos mc * 2 ^ (ec + 56)))
    with (Zpos M * 2 ^ (ec + 56)) by (rewrite EM; ring).
  rewrite (Z.mul_comm (2 ^ g)) in Hdm.
  assert (Hlo' : Zpos M - 2 ^ g < m * 2 ^ (e - E)) by lia.
  assert (Hhi' : m * 2 ^ (e - E) <= Zpos M + 2 ^ g) by lia.
  apply (Z.mul_lt_mono_pos_r (2 ^ (ec + 56)) _ _ P2c) in Hlo'.
  apply (Z.mul_le_mono_nonneg_r _ _ (2 ^ (ec + 56)) ltac:(lia)) in Hhi'.
  rewrite Z.mul_sub_distr_r in Hlo'. rewrite Z.mul_add_distr_r in Hhi'.
  split; lia.
Qed.

(** Two factors below 1 that differ by at least [2^-3] give products in
    the same order, for every positive number of mantissa at least 16. *)
Lemma mul_lt_mul (x c1 c2 : float) (mx m1 m2 : positive) (ex e1 e2 : Z) :
  Prim2SF x = S754_finite false mx ex ->
  Prim2SF c1 = S754_finite false m1 e1 ->
  Prim2SF c2 = S754_finite false m2 e2 ->
  Zpos (digits2_pos m1) = 53 -> -56 <= e1 <= -53 ->
  Zpos (digits2_pos m2) = 53 -> -56 <= e2 <= -53 ->
  2 ^ 53 <= Zpos m2 * 2 ^ (e2 + 56) - Zpos m1 * 2 ^ (e1 + 56) ->
  16 <= Zpos mx ->
  exists v1 v2 : Q,
    number_value (x * c1) = Some v1 /\ number_value (x * c2) = Some v2
    /\ (0 <= v1)%Q /\ (v1 < v2)%Q.
Proof.
  intros Hx H1 H2 Hd1 He1 Hd2 He2 Hgap Hmx.
  destruct (mul_value x c1 mx m1 ex e1 Hx H1 Hd1 He1)
    as (v1 & W1 & Hv1 & Hq1 & Hp1 & _ & Hu1).
  destruct (mul_value x c2 mx m2 ex e2 Hx H2 Hd2 He2)
    as (v2 & W2 & Hv2 & Hq2 & _ & Hl2 & _).
  exists v1, v2. split; [exact Hv1|]. split; [exact Hv2|].
  rewrite Hq1, Hq2. split.
  - rewrite <- (dyadic_0 (ex - 56)). now apply dyadic_le.
  - apply dyadic_lt.
    change (2 ^ 53) with 9007199254740992 in Hgap.
    change (2 ^ 56) with 72057594037927936 in *. nia.
Qed.

(** A factor below 1 by at least [2^-3] makes a positive number of
    mantissa at least 16 smaller. *)
Lemma mul_lt_self (x c1 : float) (mx m1 : positive) (ex e1 : Z) :
  Prim2SF x = S754_finite false mx ex ->
  Prim2SF c1 = S754_finite false m1 e1 ->
  Zpos (digits2_pos m1) = 53 -> -56 <= e1 <= -53 ->
  2 ^ 53 <= 2 ^ 56 - Zpos m1 * 2 ^ (e1 + 56) ->
  16 <= Zpos mx ->
  exists v1 : Q,
    number_value (x * c1) = Some v1 /\ (v1 < dyadic (Zpos mx) ex)%Q.
Proof.
  intros Hx H1 Hd1 He1 Hgap Hmx.
  destruct (mul_value x c1 mx m1 ex e1 Hx H1 Hd1 He1)
    as (v1 & W1 & Hv1 & Hq1 & Hp1 & _ & Hu1).
  exists v1. split; [exact Hv1|]. rewrite Hq1.
  replace ex with (ex - 56 + 56) at 2 by lia.
  rewrite <- (dyadic_scale (Zpos mx) (ex - 56 + 56) 56) by lia.
  replace (ex - 56 + 56 - 56) with (ex - 56) by lia.
  apply dyadic_lt.
  change (2 ^ 53) with 9007199254740992 in Hgap.
  change (2 ^ 56) with 72057594037927936 in *. nia.
Qed.

Local Open Scope float_scope.

Lemma small_mantissa (mx : positive) :
  (Zpos mx < 16)%Z -> In mx [1; 2; 3; 4; 5; 6; 7; 8; 9; 10; 11; 12; 13; 14; 15]%positive.
Proof.
  intros H.
  destruct mx as [[[[p|p|]|[p|p|]|]|[[p|p|]|[p|p|]|]|]|[[[p|p|]|[p|p|]|]|[[p|p|]|[p|p|]|]|]|];
    try lia; cbn; tauto.
Qed.

Ltac value_chain :=
  do 3 eexists;
  split; [vm_compute; reflexivity|];
  split; [vm_compute; reflexivity|];
  split; [vm_compute; reflexivity|];
  repeat split; vm_compute; intros C; discriminate C.

Lemma shades_small (mx : positive) :
  (Zpos mx < 16)%Z ->
  let x := SF2Prim (S754_finite false mx (-1074)) in
  exists v8 v6 v4 : Q,
    number_value (x * 0.8) = Some v8 /\ number_value (x * 0.6) = Some v6
    /\ number_value (x * 0.4) = Some v4
    /\ (0 <= v4)%Q /\ (v4 <= v6)%Q /\ (v6 <= v8)%Q
    /\ (v8 <= dyadic (Zpos mx) (-1074))%Q.
Proof.
  intros H x. subst x. apply small_mantissa in H. cbn [In] in H.
  repeat (destruct H as [<-|H]; [value_chain|]). contradiction.
Qed.

Lemma tones_small (mx : positive) :
  (Zpos mx < 16)%Z ->
  let x := SF2Prim (S754_finite false mx (-1074)) in
  exists v7 v4 v1 : Q,
    number_value (x * 0.7) = Some v7 /\ number_value (x * 0.4) = Some v4
    /\ number_value (x * 0.1) = Some v1
    /\ (0 <= v1)%Q /\ (v1 <= v4)%Q /\ (v4 <= v7)%Q
    /\ (v7 <= dyadic (Zpos mx) (-1074))%Q.
Proof.
  intros H x. subst x. apply small_mantissa in H. cbn [In] in H.
  repeat (destruct H as [<-|H]; [value_chain|]). contradiction.
Qed.

Section Chain.

Variables c1 c2 c3 : float.
Variables m1 m2 m3 : positive.
Variables e1 e2 e3 : Z.
Hypothesis P1 : Prim2SF c1 = S754_finite false m1 e1.
Hypothesis P2 : Prim2SF c2 = S754_finite false m2 e2.
Hypothesis P3 : Prim2SF c3 = S754_finite false m3 e3.
Hypothesis D1 : Zpos (digits2_pos m1) = 53%Z.
Hypothesis D2 : Zpos (digits2_pos m2) = 53%Z.
Hypothesis D3 : Zpos (digits2_pos m3) = 53%Z.
Hypothesis E1 : (-56 <= e1 <= -53)%Z.
Hypothesis E2 : (-56 <= e2 <= -53)%Z.
Hypothesis E3 : (-56 <= e3 <= -53)%Z.
Hypothesis G12 : (2 ^ 53 <= Zpos m2 * 2 ^ (e2 + 56) - Zpos m1 * 2 ^ (e1 + 56))%Z.
Hypothesis G23 : (2 ^ 53 <= Zpos m3 * 2 ^ (e3 + 56) - Zpos m2 * 2 ^ (e2 + 56))%Z.
Hypothesis G3 : (2 ^ 53 <= 2 ^ 56 - Zpos m3 * 2 ^ (e3 + 56))%Z.
Hypothesis small : forall mx : positive,
  (Zpos mx < 16)%Z ->
  let x := SF2Prim (S754_finite false mx (-1074)) in
  exists v3 v2 v1 : Q,
    number_value (x * c3) = Some v3 /\ number_value (x * c2) = Some v2
    /\ number_value (x * c1) = Some v1
    /\ (0 <= v1)%Q /\ (v1 <= v2)%Q /\ (v2 <= v3)%Q
    /\ (v3 <= dyadic (Zpos mx) (-1074))%Q.

Lemma mul_zero (s : bool) (x c : float) (m : positive) (e : Z) :
  Prim2SF x = S754_zero s -> Prim2SF c = S754_finite false m e ->
  number_value (x * c) = Some 0%Q.
Proof.
  intros Hx Hc. unfold number_value. rewrite mul_spec, Hx, Hc. reflexivity.
Qed.

Lemma tiny_pos : (0 < dyadic 1 (-1070))%Q.
Proof. rewrite <- (dyadic_0 (-1070)). apply dyadic_lt. lia. Qed.

(** Three factors [c1 < c2 < c3 < 1] scale a number that is not negative
    to values in the same order; strictly so from [2^-1070] on. *)
Lemma scaled_chain (x : float) (vx : Q) :
  number_value x = Some vx -> (0 <= vx)%Q ->
  exists v3 v2 v1 : Q,
    number_value (x * c3) = Some v3 /\ number_value (x * c2) = Some v2
    /\ number_value (x * c1) = Some v1
    /\ (0 <= v1)%Q /\ (v1 <= v2)%Q /\ (v2 <= v3)%Q /\ (v3 <= vx)%Q
    /\ ((dyadic 1 (-1070) <= vx)%Q -> (v1 < v2)%Q /\ (v2 < v3)%Q /\ (v3 < vx)%Q).
Proof.
  intros H Hpos. unfold number_value in H.
  destruct (Prim2SF x) as [s| | |s m e] eqn:Hx; try discriminate;
    injection H as <-.
  - exists 0%Q, 0%Q, 0%Q.
    rewrite (mul_zero s x c3 m3 e3 Hx P3), (mul_zero s x c2 m2 e2 Hx P2),
      (mul_zero s x c1 m1 e1 Hx P1).
    repeat split; try apply Qle_refl; pose proof tiny_pos; lra.
  - destruct s.
    { exfalso. pose proof (dyadic_lt (Zneg m) 0 e ltac:(lia)) as C.
      rewrite dyadic_0 in C. lra. }
    destruct (Z_lt_le_dec (Zpos m) 16) as [Hs|Hb].
    + destruct (Prim2SF_finite_valid x false m e Hx) as (_ & _ & Hcan).
      assert (He : e = (-1074)%Z).
      { destruct Hcan as [Hd|He]; [|exact He]. exfalso.
        destruct (digits2_bounds m) as [L _]. rewrite Hd in L.
        change (2 ^ (53 - 1))%Z with 4503599627370496%Z in L. lia. }
      subst e.
      assert (Ex : x = SF2Prim (S754_finite false m (-1074)))
        by (rewrite <- Hx; symmetry; apply SF2Prim_Prim2SF).
      destruct (small m Hs) as (v3 & v2 & v1 & H3 & H2 & H1 & B0 & B1 & B2 & B3).
      rewrite <- Ex in H3, H2, H1.
      exists v3, v2, v1. repeat (split; [assumption|]).
      intros Hbig. exfalso.
      pose proof (dyadic_lt (Zpos m) 16 (-1074) Hs) as C.
      assert (E16 : (dyadic 16 (-1074) == dyadic 1 (-1070))%Q) by reflexivity.
      rewrite E16 in C. lra.
    + destruct (mul_lt_mul x c1 c2 m m1 m2 e e1 e2 Hx P1 P2 D1 E1 D2 E2 G12 Hb)
        as (v1 & v2 & H1 & H2 & B0 & B12).
      destruct (mul_lt_mul x c2 c3 m m2 m3 e e2 e3 Hx P2 P3 D2 E2 D3 E3 G23 Hb)
        as (v2' & v3 & H2' & H3 & _ & B23).
      destruct (mul_lt_self x c3 m m3 e e3 Hx P3 D3 E3 G3 Hb) as (v3' & H3' & B3).
      rewrite H2 in H2'. injection H2' as <-.
      rewrite H3 in H3'. injection H3' as <-.
      exists v3, v2, v1. repeat (split; [assumption|]).
      repeat split; try assumption; lra.
Qed.

End Chain.

(** Progressively darker: [L * 0.4 <= L * 0.6 <= L * 0.8 <= L]. *)
Lemma shades_darker (x : float) (vx : Q) :
  number_value x = Some vx -> (0 <= vx)%Q ->
  exists v8 v6 v4 : Q,
    number_value (x * 0.8) = Some v8 /\ number_value (x * 0.6) = Some v6
    /\ number_value (x * 0.4) = Some v4
    /\ (0 <= v4)%Q /\ (v4 <= v6)%Q /\ (v6 <= v8)%Q /\ (v8 <= vx)%Q
    /\ ((dyadic 1 (-1070) <= vx)%Q -> (v4 < v6)%Q /\ (v6 < v8)%Q /\ (v8 < vx)%Q).
Proof.
  apply (scaled_chain 0.4 0.6 0.8
           7205759403792794 5404319552844595 7205759403792794 (-54) (-53) (-53));
    try exact shades_small; try (vm_compute; reflexivity); try lia;
    vm_compute; intros C; discriminate C.
Qed.

(** Progressively desaturated: [C * 0.1 <= C * 0.4 <= C * 0.7 <= C]. *)
Lemma tones_desaturated (x : float) (vx : Q) :
  number_value x = Some vx -> (0 <= vx)%Q ->
  exists v7 v4 v1 : Q,
    number_value (x * 0.7) = Some v7 /\ number_value (x * 0.4) = Some v4
    /\ number_value (x * 0.1) = Some v1
    /\ (0 <= v1)%Q /\ (v1 <= v4)%Q /\ (v4 <= v7)%Q /\ (v7 <= vx)%Q
    /\ ((dyadic 1 (-1070) <= vx)%Q -> (v1 < v4)%Q /\ (v4 < v7)%Q /\ (v7 < vx)%Q).
Proof.
  apply (scaled_chain 0.1 0.4 0.7
           7205759403792794 7205759403792794 6305039478318694 (-56) (-54) (-53));
    try exact tones_small; try (vm_compute; reflexivity); try lia;
    vm_compute; intros C; discriminate C.
Qed.

End ScaleFacts.

(** ** The adjusted colour: statement *)

Module AdjustClaims.

Import QArith.
Import JSNumber NumberSpec NumberFacts ColorSpec NumberValue ValueFacts Observed.

Local Open Scope Z_scope.
Local Open Scope float_scope.

Lemma rem_360_nan (x : float) :
  number_value x = None -> is_nan (rem x 360) = true.
Proof.
  unfold number_value, rem. rewrite Prim2SF_360.
  destruct (Prim2SF x); try discriminate; reflexivity.
Qed.

Lemma Math_max_0_larger (y : float) :
  is_nan y = false ->
  (0 <=? Math_max 0 y) && (y <=? Math_max 0 y)
  && ((Math_max 0 y =? 0) || (Math_max 0 y =? y)) = true.
Proof.
  intros Hn. rewrite (Math_max_0 y Hn).
  pose proof (Prim2SF_not_nan y Hn) as Hsf.
  pose proof (is_nan_eqb y Hn) as Hyy.
  destruct (0 <? y) eqn:E.
  - rewrite Hyy, orb_true_r, andb_true_r.
    assert (L : (y <=? y) = true) by (clear E; sf_cases y; rewrite ?Z.compare_refl in *;
       rewrite ?Pos.compare_cont_refl in *; try reflexivity; try discriminate).
    rewrite L, andb_true_r. clear Hyy L. sf_cases y.
  - change (0 <=? 0) with true. change (0 =? 0) with true. cbn [andb orb].
    rewrite andb_true_r. clear Hyy. sf_cases y.
Qed.


Section Claims.

Variable other : string -> option D3.Color.
Variable hsl_rgb : float -> float -> float -> float -> D3.Rgb.
Variable rgb2lch : D3.Rgb -> D3.Hcl.
Variable lch2rgb : D3.Hcl -> D3.Rgb.


End Claims.


End AdjustClaims.

(** ** Shades and tones: statement *)

Module HarmonyClaims.

Import QArith.
Import JSNumber NumberSpec ColorSpec NumberValue ValueFacts ScaleFacts Observed.

Local Open Scope Z_scope.
Local Open Scope float_scope.

Section Claims.

Variable other : string -> option D3.Color.
Variable hsl_rgb : float -> float -> float -> float -> D3.Rgb.
Variable rgb2lch : D3.Rgb -> D3.Hcl.
Variable lch2rgb : D3.Hcl -> D3.Rgb.


End Claims.


End HarmonyClaims.
